(** * UE4SS installer core: release catalog, selectors and settings file

    A shallow embedding of [ue4ss_installer_core/ue4ss.py].

    - Python [str] values are lists of characters ([str]); a character is a
      code point below 256, carried by [ascii].
    - The process-wide variable [cached_repo_releases_info] and the requests
      sent to the release API are threaded through a [world] record.
    - Exceptions are values of [exn]; a call returns [exn + A].
    - The settings file is the text the file holds; reading follows Python's
      universal-newlines text mode, writing translates the line feed into
      the platform line separator. *)

From Stdlib Require Import List Ascii String Bool Arith NArith ZArith Lia.
From Stdlib Require Import Sorted Permutation DecimalString.
Import ListNotations.

Set Implicit Arguments.

(** ** Strings *)

Definition str := list ascii.

(** A literal of the source, [lit "abc"]. *)
Definition lit (s : string) : str := list_ascii_of_string s.

Definition LF : ascii := ascii_of_nat 10.
Definition CR : ascii := ascii_of_nat 13.
Definition SP : ascii := ascii_of_nat 32.
Definition DQUOTE : ascii := ascii_of_nat 34.
Definition EQUALS : ascii := ascii_of_nat 61.
Definition SEMI : ascii := ascii_of_nat 59.
Definition LBRACKET : ascii := ascii_of_nat 91.
Definition RBRACKET : ascii := ascii_of_nat 93.

Definition code (c : ascii) : N := N_of_ascii c.

(** [str.isspace] on one character, for the code points below 256. *)
Definition isspace (c : ascii) : bool :=
  let n := code c in
  ((9 <=? n) && (n <=? 13) || (28 <=? n) && (n <=? 32)
   || (n =? 133) || (n =? 160))%N.

(** [str.lower] on one character: A-Z, and the Latin-1 capitals
    (U+00C0-U+00DE but the multiplication sign U+00D7). *)
Definition lower_char (c : ascii) : ascii :=
  let n := code c in
  if ((65 <=? n) && (n <=? 90)
      || (192 <=? n) && (n <=? 222) && negb (n =? 215))%N
  then ascii_of_N (n + 32) else c.

Definition lower (s : str) : str := map lower_char s.

Definition str_eqb (a b : str) : bool :=
  if list_eq_dec ascii_dec a b then true else false.

Definition opt_str_eqb (a b : option str) : bool :=
  match a, b with
  | Some x, Some y => str_eqb x y
  | None, None => true
  | _, _ => false
  end.

Fixpoint startswith (p s : str) : bool :=
  match p, s with
  | [], _ => true
  | _ :: _, [] => false
  | a :: p', b :: s' => if ascii_dec a b then startswith p' s' else false
  end.

Definition endswith (p s : str) : bool := startswith (rev p) (rev s).

(** [p in s] for strings. *)
Fixpoint contains (p s : str) : bool :=
  startswith p s ||
  match s with
  | [] => false
  | _ :: s' => contains p s'
  end.

(** [c in s] for one character. *)
Definition has_char (c : ascii) (s : str) : bool :=
  existsb (fun x => if ascii_dec x c then true else false) s.

Fixpoint lstrip (s : str) : str :=
  match s with
  | [] => []
  | c :: s' => if isspace c then lstrip s' else s
  end.

Definition rstrip (s : str) : str := rev (lstrip (rev s)).

(** [s.strip()] *)
Definition strip (s : str) : str := rstrip (lstrip s).

(** [s.split(c, 1)] for an [s] that holds [c]: the text left of the first
    [c] and the text right of it. *)
Fixpoint split_once (c : ascii) (s : str) : str * str :=
  match s with
  | [] => ([], [])
  | x :: s' =>
      if ascii_dec x c then ([], s')
      else let (l, r) := split_once c s' in (x :: l, r)
  end.

(** [a < b] on strings: lexicographic on code points. *)
Fixpoint str_ltb (a b : str) : bool :=
  match a, b with
  | _, [] => false
  | [], _ :: _ => true
  | x :: a', y :: b' =>
      if (code x <? code y)%N then true
      else if (code y <? code x)%N then false
      else str_ltb a' b'
  end.

(** [str(n)] for an integer. *)
Definition str_of_Z (z : Z) : str :=
  lit (NilZero.string_of_int (Z.to_int z)).

(** ** Exceptions and results *)

Inductive exn : Type :=
| Exception (msg : str)
| RuntimeError (msg : str)
| IndexError.

Definition result (A : Type) : Type := (exn + A)%type.

Definition ok {A : Type} (a : A) : result A := inr a.
Definition raise {A : Type} (e : exn) : result A := inl e.

Definition bind {A B : Type} (m : result A) (k : A -> result B) : result B :=
  match m with
  | inl e => inl e
  | inr a => k a
  end.

(** The failures of the specification, as the exceptions the code raises. *)
Definition CatalogNotCachedError : exn :=
  Exception (lit "Repo release info is not cached. Please call cache_repo_releases_info first.").

Definition RemoteAPIError (status : Z) (body : str) : exn :=
  Exception (lit "GitHub API error: " ++ str_of_Z status ++ lit " - " ++ body).

Definition NoDefaultTagError : exn := IndexError.

(** ** Data model *)

Record ReleaseTagAssetInfo : Type := mkReleaseTagAssetInfo {
  file_name : str;
  download_link : str;
  asset_created_at : str
}.

(** [tag] is what [release.get("tag_name")] gave: [None] when the release
    object has no such key. *)
Record ReleaseAssetInfo : Type := mkReleaseAssetInfo {
  tag : option str;
  is_prerelease : bool;
  is_latest : bool;
  has_assets : bool;
  created_at : str;
  assets : list ReleaseTagAssetInfo
}.

Record RepositoryReleasesInfo : Type := mkRepositoryReleasesInfo {
  owner : str;
  repo : str;
  tags : list ReleaseAssetInfo
}.

Record ConfigEntry : Type := mkConfigEntry {
  key : str;
  value : str;
  comments : list str
}.

Record ConfigSection : Type := mkConfigSection {
  header : str;
  config_entries : list ConfigEntry
}.

(** ** The release API *)

(** An asset object of the JSON answer; the code indexes its three keys. *)
Record asset_json : Type := mkAssetJson {
  name : str;
  browser_download_url : str;
  json_asset_created_at : str
}.

(** A release object of the JSON answer; the code reads its keys with
    [dict.get], so each may be absent. *)
Record release_json : Type := mkReleaseJson {
  json_tag_name : option str;
  json_prerelease : option bool;
  json_created_at : option str;
  json_assets : option (list asset_json)
}.

Record response : Type := mkResponse {
  status_code : Z;
  text : str;
  json : list release_json
}.

Record request : Type := mkRequest {
  req_url : str;
  req_page : nat;
  req_per_page : nat
}.

(** The process: the module-level variable and the requests sent so far. *)
Record world : Type := mkWorld {
  cached_repo_releases_info : option RepositoryReleasesInfo;
  requests_sent : list request
}.

Definition get_prerelease (r : release_json) : bool :=
  match json_prerelease r with Some b => b | None => false end.

Definition get_created_at (r : release_json) : str :=
  match json_created_at r with Some s => s | None => [] end.

Definition get_assets (r : release_json) : list asset_json :=
  match json_assets r with Some l => l | None => [] end.

(** ** [sorted(xs, key=..., reverse=True)]

    Python's sort is stable, also with [reverse=True]; a stable sort is
    determined by its input, here it is an insertion sort that only uses
    [<] on keys, as Python does. *)
Section Sorted.
Variable A : Type.
Variable sort_key : A -> str.

Fixpoint insert_desc (x : A) (l : list A) : list A :=
  match l with
  | [] => [x]
  | y :: l' =>
      if str_ltb (sort_key x) (sort_key y) then y :: insert_desc x l'
      else x :: l
  end.

Definition sorted_reverse (l : list A) : list A :=
  fold_right insert_desc [] l.
End Sorted.

(** ** Release Catalog Client *)

Definition releases_url (owner repo : str) : str :=
  lit "https://api.github.com/repos/" ++ owner ++ lit "/" ++ repo
  ++ lit "/releases".

(** The first loop over [sorted_releases]: the tag of the first release
    that is no prerelease, [None] when there is none. *)
Fixpoint find_latest_tag (sorted_releases : list release_json) : option str :=
  match sorted_releases with
  | [] => None
  | release :: rest =>
      if negb (get_prerelease release) then json_tag_name release
      else find_latest_tag rest
  end.

Definition make_asset (asset : asset_json) : ReleaseTagAssetInfo :=
  {| file_name := name asset;
     download_link := browser_download_url asset;
     asset_created_at := json_asset_created_at asset |}.

(** The body of the second loop. *)
Definition make_tag_info (latest_tag : option str) (release : release_json)
  : ReleaseAssetInfo :=
  let tag := json_tag_name release in
  let assets := map make_asset (get_assets release) in
  {| tag := tag;
     is_prerelease := get_prerelease release;
     is_latest := opt_str_eqb tag latest_tag;
     has_assets := match assets with [] => false | _ :: _ => true end;
     created_at := get_created_at release;
     assets := assets |}.

(** Lines 100-138: from the accumulated releases to the catalog. *)
Definition build_catalog (owner repo : str) (all_releases : list release_json)
  : RepositoryReleasesInfo :=
  let sorted_releases := sorted_reverse get_created_at all_releases in
  let latest_tag := find_latest_tag sorted_releases in
  {| owner := owner;
     repo := repo;
     tags := map (make_tag_info latest_tag) sorted_releases |}.

Section Remote.
(** What the API answers to the request for page [n] of [url] during one
    call of [get_all_release_assets] (each page is asked for once). *)
Variable requests_get : str -> nat -> response.

(** The [while True] loop, lines 86-98. [None]: the fuel ran out. *)
Fixpoint fetch_pages (fuel : nat) (url : str) (page : nat)
    (all_releases : list release_json) (sent : list request)
  : option (result (list release_json) * list request) :=
  match fuel with
  | O => None
  | S fuel' =>
      let response := requests_get url page in
      let sent := sent ++ [mkRequest url page 100] in
      if negb (status_code response =? 200)%Z then
        Some (raise (RemoteAPIError (status_code response) (text response)),
              sent)
      else
        match json response with
        | [] => Some (ok all_releases, sent)
        | releases =>
            fetch_pages fuel' url (page + 1) (all_releases ++ releases) sent
        end
  end.

Definition get_all_release_assets (fuel : nat) (owner repo : str)
    (sent : list request)
  : option (result RepositoryReleasesInfo * list request) :=
  match fetch_pages fuel (releases_url owner repo) 1 [] sent with
  | None => None
  | Some (inl e, sent') => Some (inl e, sent')
  | Some (inr all_releases, sent') =>
      Some (ok (build_catalog owner repo all_releases), sent')
  end.

Definition cache_repo_releases_info (fuel : nat) (owner repo : str)
    (w : world) : option (result unit * world) :=
  match cached_repo_releases_info w with
  | None =>
      match get_all_release_assets fuel owner repo (requests_sent w) with
      | None => None
      | Some (inl e, sent') => Some (inl e, mkWorld None sent')
      | Some (inr info, sent') => Some (ok tt, mkWorld (Some info) sent')
      end
  | Some _ => Some (ok tt, w)
  end.
End Remote.

(** ** Release Selector *)

(** A Python [dict] from file name to link: keys are unique and keep the
    place of their first insertion, a later value replaces the earlier. *)
Definition dict := list (str * str).

Fixpoint dict_set (d : dict) (k v : str) : dict :=
  match d with
  | [] => [(k, v)]
  | (k', v') :: d' =>
      if str_eqb k' k then (k', v) :: d' else (k', v') :: dict_set d' k v
  end.

Definition dict_values (d : dict) : list str := map snd d.

Definition dict_of_assets (l : list ReleaseTagAssetInfo) : dict :=
  fold_left (fun d asset => dict_set d (file_name asset) (download_link asset))
            l [].

Fixpoint links_of_tag (l : list ReleaseAssetInfo) (t : option str) : dict :=
  match l with
  | [] => []
  | tag_info :: rest =>
      if opt_str_eqb (tag tag_info) t then dict_of_assets (assets tag_info)
      else links_of_tag rest t
  end.

Definition get_file_name_to_download_links_from_tag (t : option str)
    (w : world) : result dict :=
  match cached_repo_releases_info w with
  | None => raise CatalogNotCachedError
  | Some info => ok (links_of_tag (tags info) t)
  end.

Definition tags_where (p : ReleaseAssetInfo -> bool)
    (info : RepositoryReleasesInfo) : list (option str) :=
  map tag (filter p (tags info)).

Definition get_all_tags_with_assets (w : world) : result (list (option str)) :=
  match cached_repo_releases_info w with
  | None => raise CatalogNotCachedError
  | Some info => ok (tags_where has_assets info)
  end.

Definition get_pre_release_tags_with_assets (w : world)
  : result (list (option str)) :=
  match cached_repo_releases_info w with
  | None => raise CatalogNotCachedError
  | Some info =>
      ok (tags_where (fun t => has_assets t && is_prerelease t) info)
  end.

Definition get_normal_release_tags_with_assets (w : world)
  : result (list (option str)) :=
  match cached_repo_releases_info w with
  | None => raise CatalogNotCachedError
  | Some info =>
      ok (tags_where (fun t => has_assets t && negb (is_prerelease t)) info)
  end.

(** [l[0]] *)
Definition index0 {A : Type} (l : list A) : result A :=
  match l with
  | [] => raise IndexError
  | x :: _ => ok x
  end.

Definition get_default_ue4ss_version_tag (w : world) : result (option str) :=
  match cached_repo_releases_info w with
  | None => ok (Some (lit "latest"))
  | Some _ => bind (get_normal_release_tags_with_assets w) index0
  end.

(** The test of the generator expression in both install functions. *)
Definition installable (link : str) : bool :=
  contains (lit "ue4ss") (lower link)
  && negb (contains (lit "zdev") (lower link)).

(** [f"{tag}"]: a missing tag prints as [None]. *)
Definition format_tag (t : option str) : str :=
  match t with Some s => s | None => lit "None" end.

Definition NoCompatibleAssetError (t : option str) : exn :=
  RuntimeError (lit "Unable to find a compatible UE4SS release for tag "
                ++ [DQUOTE] ++ format_tag t ++ [DQUOTE]).

(** Lines 295-301 and 321-327: [next(..., None)], then the truth test. *)
Definition final_download_link (t : option str) (d : dict) : result str :=
  match find installable (dict_values d) with
  | Some (c :: link) => ok (c :: link)
  | _ => raise (NoCompatibleAssetError t)
  end.

(** Selecting the asset to install for a tag, as both install functions do
    between the catalog lookup and the download. *)
Definition select_installable_asset (t : option str) (w : world)
  : result str :=
  bind (get_file_name_to_download_links_from_tag t w) (final_download_link t).

(** ** Settings file: reading *)

(** The lines a text-mode file yields ([newline=None], universal newlines):
    a line ends after a line feed, a carriage return, or the two in a row,
    each handed over as one line feed; [cur] is the line read so far. *)
Fixpoint read_lines_from (cur : str) (raw : str) : list str :=
  match raw with
  | [] => match cur with [] => [] | _ :: _ => [cur] end
  | c :: raw' =>
      if ascii_dec c LF then (cur ++ [LF]) :: read_lines_from [] raw'
      else if ascii_dec c CR then
        match raw' with
        | c' :: raw'' =>
            if ascii_dec c' LF then (cur ++ [LF]) :: read_lines_from [] raw''
            else (cur ++ [LF]) :: read_lines_from [] raw'
        | [] => (cur ++ [LF]) :: read_lines_from [] raw'
        end
      else read_lines_from (cur ++ [c]) raw'
  end.

Definition read_lines (raw : str) : list str := read_lines_from [] raw.

(** The local variables of [parse_ue4ss_settings_file]. *)
Record parser : Type := mkParser {
  sections : list ConfigSection;
  current_section : option ConfigSection;
  pending_comments : list str
}.

Definition parser_start : parser :=
  {| sections := []; current_section := None; pending_comments := [] |}.

(** [if current_section: sections.append(current_section)]; an instance of
    the dataclass is always true. *)
Definition append_current (p : parser) : list ConfigSection :=
  match current_section p with
  | Some s => sections p ++ [s]
  | None => sections p
  end.

Definition is_header (stripped : str) : bool :=
  startswith [LBRACKET] stripped && endswith [RBRACKET] stripped.

Definition make_entry (stripped : str) (pending : list str) : ConfigEntry :=
  let (k, v) := split_once EQUALS stripped in
  {| key := strip k; value := strip v; comments := pending |}.

Definition append_entry (s : ConfigSection) (e : ConfigEntry) : ConfigSection :=
  {| header := header s; config_entries := config_entries s ++ [e] |}.

(** The body of the loop over the lines, lines 233-254. *)
Definition parse_line (p : parser) (line : str) : parser :=
  let stripped := strip line in
  match stripped with
  | [] => p
  | _ :: _ =>
      if is_header stripped then
        {| sections := append_current p;
           current_section := Some (mkConfigSection stripped []);
           pending_comments := [] |}
      else if startswith [SEMI] stripped then
        {| sections := sections p;
           current_section := current_section p;
           pending_comments := pending_comments p ++ [stripped] |}
      else if has_char EQUALS stripped then
        let current :=
          match current_section p with
          | None => mkConfigSection [] []
          | Some s => s
          end in
        let entry := make_entry stripped (pending_comments p) in
        {| sections := sections p;
           current_section := Some (append_entry current entry);
           pending_comments := [] |}
      else
        {| sections := sections p;
           current_section := current_section p;
           pending_comments := pending_comments p ++ [stripped] |}
  end.

Definition parse_lines (lines : list str) : list ConfigSection :=
  append_current (fold_left parse_line lines parser_start).

(** [parse_ue4ss_settings_file], on the text the file holds. *)
Definition parse_ue4ss_settings_file (raw : str) : list ConfigSection :=
  parse_lines (read_lines raw).

(** ** Settings file: writing *)

Definition entry_text (e : ConfigEntry) : str :=
  List.concat (map (fun comment => comment ++ [LF]) (comments e))
  ++ key e ++ lit " = " ++ value e ++ [LF].

Definition section_text (s : ConfigSection) : str :=
  match header s with
  | [] => []
  | _ :: _ => header s ++ [LF]
  end
  ++ List.concat (map entry_text (config_entries s))
  ++ [LF].

(** What the calls of [file.write] hand over, in order. *)
Definition written_text (l : list ConfigSection) : str :=
  List.concat (map section_text l).

(** A text-mode file opened for writing turns each line feed into the
    platform's line separator [os.linesep]. *)
Definition translate_newlines (linesep : str) (s : str) : str :=
  flat_map (fun c => if ascii_dec c LF then linesep else [c]) s.

(** [write_ue4ss_settings_file]: the text the file holds afterwards. *)
Definition write_ue4ss_settings_file (linesep : str)
    (l : list ConfigSection) : str :=
  translate_newlines linesep (written_text l).

(** ** Predicates of the statements *)

(** [p] occurs in [s]. *)
Definition has_substring (p s : str) : Prop :=
  exists before after, s = before ++ p ++ after.

(** The link names the runtime and no developer build, whatever the case
    of its letters. *)
Definition qualifies (link : str) : Prop :=
  has_substring (lit "ue4ss") (lower link)
  /\ ~ has_substring (lit "zdev") (lower link).

(** [a <= b] on strings. *)
Definition str_leb (a b : str) : bool := negb (str_ltb b a).

(** [a] is not older than [b], by the sort key. *)
Definition newer_or_same {A : Type} (sort_key : A -> str) (a b : A) : Prop :=
  str_leb (sort_key b) (sort_key a) = true.

(** Newest first: no tag is older than a later one. *)
Definition newest_first (l : list ReleaseAssetInfo) : Prop :=
  StronglySorted (fun a b => str_leb (created_at b) (created_at a) = true) l.

(** The tags created at [stamp], in the order of the list. *)
Definition created_on (stamp : str) (l : list ReleaseAssetInfo)
  : list ReleaseAssetInfo :=
  filter (fun t => str_eqb (created_at t) stamp) l.

Definition released_on (stamp : str) (l : list release_json)
  : list release_json :=
  filter (fun r => str_eqb (get_created_at r) stamp) l.

(** The latest flag of a catalog: no tag carries it when all are
    prereleases; otherwise the first tag that is no prerelease carries it
    and no other does. *)
Definition latest_flag_ok (l : list ReleaseAssetInfo) : Prop :=
  Forall (fun t => is_prerelease t = true /\ is_latest t = false) l
  \/ exists before t after,
       l = before ++ t :: after
       /\ Forall (fun x => is_prerelease x = true /\ is_latest x = false) before
       /\ is_prerelease t = false /\ is_latest t = true
       /\ Forall (fun x => is_latest x = false) after.

(** The requests for pages [1..n] of [url]. *)
Definition page_requests (url : str) (first n : nat) : list request :=
  map (fun p => mkRequest url p 100) (seq first n).

(** An API that serves one page holding the same release twice. *)
Definition twice_v1 : release_json :=
  mkReleaseJson (Some (lit "v1")) (Some false)
                (Some (lit "2024-01-01T00:00:00Z")) (Some []).

Definition twice_api (url : str) (page : nat) : response :=
  match page with
  | 1 => mkResponse 200 [] [twice_v1; twice_v1]
  | _ => mkResponse 200 [] []
  end.

(** Only white space. *)
Definition all_space (s : str) : Prop := Forall (fun c => isspace c = true) s.

(** No white space in front. *)
Definition head_ok (s : str) : Prop :=
  match s with
  | [] => True
  | c :: _ => isspace c = false
  end.

(** No white space at either end. *)
Definition trimmed (s : str) : Prop := head_ok s /\ head_ok (rev s).

(** No line end inside. *)
Definition clean (s : str) : Prop := Forall (fun c => c <> LF /\ c <> CR) s.

(** The classes of lines of the parser, on a line as read. *)
Definition is_key_value (line : str) : bool :=
  let stripped := strip line in
  negb (is_header stripped) && negb (startswith [SEMI] stripped)
  && has_char EQUALS stripped.

Definition is_comment (line : str) : bool :=
  let stripped := strip line in
  match stripped with
  | [] => false
  | _ :: _ =>
      negb (is_header stripped)
      && (startswith [SEMI] stripped || negb (has_char EQUALS stripped))
  end.

(** Two parser states that differ at most in the pending comments. *)
Definition same_sections (p q : parser) : Prop :=
  sections p = sections q /\ current_section p = current_section q.

(** ** The shape of what the parser builds *)

Definition add_LF (line : str) : str := line ++ [LF].

(** The lines [write_ue4ss_settings_file] writes, without their line ends. *)
Definition entry_lines (e : ConfigEntry) : list str :=
  comments e ++ [key e ++ lit " = " ++ value e].

Definition section_lines (s : ConfigSection) : list str :=
  match header s with
  | [] => []
  | _ :: _ => [header s]
  end
  ++ flat_map entry_lines (config_entries s)
  ++ [[]].

(** A line as the file object hands it over. *)
Definition line_ok (line : str) : Prop :=
  exists body, clean body /\ (line = body ++ [LF] \/ line = body).

Definition wf_comment (c : str) : Prop :=
  trimmed c /\ clean c /\ is_comment c = true.

Definition wf_entry (e : ConfigEntry) : Prop :=
  Forall wf_comment (comments e)
  /\ clean (key e) /\ clean (value e)
  /\ trimmed (key e) /\ trimmed (value e)
  /\ ~ In EQUALS (key e)
  /\ startswith [SEMI] (key e) = false
  /\ startswith [LBRACKET] (key e) && startswith [RBRACKET] (rev (value e))
     = false.

Definition wf_header (h : str) : Prop :=
  trimmed h /\ clean h /\ is_header h = true.

Definition wf_section (s : ConfigSection) : Prop :=
  Forall wf_entry (config_entries s)
  /\ (wf_header (header s) \/ (header s = [] /\ config_entries s <> [])).

Definition named (s : ConfigSection) : Prop := header s <> [].

(** Only the first section may lack a header. *)
Definition wf_file (l : list ConfigSection) : Prop :=
  Forall wf_section l /\ Forall named (tl l).

Definition parser_inv (p : parser) : Prop :=
  wf_file (append_current p)
  /\ Forall wf_comment (pending_comments p)
  /\ (current_section p = None -> sections p = []).

(** The trimmed form of the line written for a key and a value. *)
Definition pad_right (k : str) : str :=
  match k with [] => [] | _ :: _ => k ++ [SP] end.

Definition pad_left (v : str) : str :=
  match v with [] => [] | _ :: _ => SP :: v end.

Definition join (k v : str) : str := pad_right k ++ EQUALS :: pad_left v.

(** ** Sample inputs *)

Definition sample_owner : str := lit "UE4SS-RE".
Definition sample_repo : str := lit "RE-UE4SS".

Definition sample_dev_asset : asset_json :=
  mkAssetJson (lit "zDEV-UE4SS_v3.0.1.zip")
              (lit "https://github.com/UE4SS-RE/RE-UE4SS/releases/download/v3.0.1/zDEV-UE4SS_v3.0.1.zip")
              (lit "2024-02-10T12:00:00Z").

Definition sample_main_asset : asset_json :=
  mkAssetJson (lit "UE4SS_v3.0.1.zip")
              (lit "https://github.com/UE4SS-RE/RE-UE4SS/releases/download/v3.0.1/UE4SS_v3.0.1.zip")
              (lit "2024-02-10T12:00:00Z").

Definition sample_stable : release_json :=
  mkReleaseJson (Some (lit "v3.0.1")) (Some false)
                (Some (lit "2024-02-10T12:00:00Z"))
                (Some [sample_dev_asset; sample_main_asset]).

Definition sample_experimental : release_json :=
  mkReleaseJson (Some (lit "experimental")) (Some true)
                (Some (lit "2024-03-01T08:30:00Z")) (Some []).

Definition sample_old : release_json :=
  mkReleaseJson (Some (lit "v2.5.2")) None
                (Some (lit "2024-02-10T12:00:00Z")) None.

Definition sample_releases : list release_json :=
  [sample_stable; sample_experimental; sample_old].

(** An API with one page of releases. *)
Definition sample_api (url : str) (page : nat) : response :=
  match page with
  | 1 => mkResponse 200 [] sample_releases
  | _ => mkResponse 200 [] []
  end.

(** An API that refuses the second page. *)
Definition limited_api (url : str) (page : nat) : response :=
  match page with
  | 1 => mkResponse 200 [] sample_releases
  | _ => mkResponse 403 (lit "rate limit exceeded") []
  end.

Definition sample_world : world :=
  mkWorld (Some (build_catalog sample_owner sample_repo sample_releases)) [].

Definition sample_settings : str :=
  lit "[Overrides]" ++ [LF]
  ++ lit "; Path to the mods folder" ++ [LF]
  ++ lit "ModsFolderPath = " ++ [LF]
  ++ [LF]
  ++ lit "[General]" ++ [LF]
  ++ lit "  bUseUObjectArrayCache=true  " ++ [CR; LF]
  ++ lit "; left over" ++ [LF]
  ++ lit "stray words" ++ [LF].

Unset Implicit Arguments.

(** ** Printing the settings *)

(** [test_ue4ss_settings_print_out]: the text sent to the standard output;
    [print] ends each of its lines with a line feed. *)
Definition test_ue4ss_settings_print_out (l : list ConfigSection) : str :=
  List.concat
    (map (fun section =>
            (if negb (str_eqb (header section) []) then header section ++ [LF]
             else [])
            ++ List.concat
                 (map (fun entry =>
                         List.concat
                           (map (fun comment => comment ++ [LF])
                                (comments entry))
                         ++ (key entry ++ lit " = " ++ value entry) ++ [LF])
                      (config_entries section))
            ++ [LF])
         l).

(** ** Probing a game directory *)

Section Probe.
(** The file system as the function asks about it: a path names a
    directory, a file or nothing; [iterdir] lists the children of a
    directory and [child p name] is [p / name]. *)
Variable path : Type.
Variable isdir : path -> bool.
Variable isfile : path -> bool.
Variable iterdir : path -> list path.
Variable child : path -> str -> path.

Definition win64_of (dir_one_level_in : path) : path :=
  child (child dir_one_level_in (lit "Binaries")) (lit "Win64").

(** One round of the loop, lines 154-171: [true] when it returns [True],
    [false] when it goes on to the next child. *)
Definition probe_child (dir_one_level_in : path) : bool :=
  if negb (isdir dir_one_level_in) then false
  else
    let win64_dir := win64_of dir_one_level_in in
    if negb (isdir win64_dir) then false
    else
      let by_xinput :=
        isfile (child win64_dir (lit "xinput1_3.dll"))
        && isfile (child win64_dir (lit "UE4SS-settings.ini")) in
      if isfile (child win64_dir (lit "dwmapi.dll")) then
        if isfile (child (child win64_dir (lit "ue4ss")) (lit "ue4ss.dll"))
        then true
        else if isfile (child win64_dir (lit "ue4ss.dll")) then true
        else by_xinput
      else by_xinput.

Fixpoint probe_children (children : list path) : bool :=
  match children with
  | [] => false
  | dir_one_level_in :: rest =>
      if probe_child dir_one_level_in then true else probe_children rest
  end.

Definition is_ue4ss_installed (game_directory : path) : bool :=
  if isdir game_directory then probe_children (iterdir game_directory)
  else false.

(** The layout the probe looks for under one child directory. *)
Definition ue4ss_layout (d : path) : Prop :=
  isdir d = true /\ isdir (win64_of d) = true
  /\ ((isfile (child (win64_of d) (lit "dwmapi.dll")) = true
       /\ (isfile (child (child (win64_of d) (lit "ue4ss")) (lit "ue4ss.dll"))
           = true
           \/ isfile (child (win64_of d) (lit "ue4ss.dll")) = true))
      \/ (isfile (child (win64_of d) (lit "xinput1_3.dll")) = true
          /\ isfile (child (win64_of d) (lit "UE4SS-settings.ini")) = true)).
End Probe.

Arguments win64_of {path} child dir_one_level_in.
Arguments probe_child {path} isdir isfile child dir_one_level_in.
Arguments probe_children {path} isdir isfile child children.
Arguments is_ue4ss_installed {path} isdir isfile iterdir child game_directory.
Arguments ue4ss_layout {path} isdir isfile child d.

(** ** Drive letters ([file_io.get_all_drive_letter_paths]) *)

Definition BACKSLASH : ascii := ascii_of_nat 92.
Definition COLON : ascii := ascii_of_nat 58.

(** [f"{chr(drive + ord('A'))}:\\"] *)
Definition drive_letter (drive : nat) : str :=
  [ascii_of_nat (drive + 65); COLON; BACKSLASH].

Section Drives.
(** [os.path.exists] *)
Variable path_exists : str -> bool.

Definition get_all_drive_letter_paths : list str :=
  fold_left (fun drive_letters drive =>
               if path_exists (drive_letter drive)
               then drive_letters ++ [drive_letter drive]
               else drive_letters)
            (seq 0 26) [].
End Drives.

(** ** The installer *)

(** What a path of the disk names. *)
Inductive node (data : Type) : Type :=
| File (content : data)
| Directory.
Arguments File {data} content.
Arguments Directory {data}.

(** The exceptions of the file operations. *)
Inductive io_exn : Type :=
| FileNotFoundError
| NotAFileError
| ExtractionError.

(** What an install call may raise. *)
Inductive install_exn : Type :=
| Raised (e : exn)
| RaisedIO (e : io_exn).

Section Installer.
Variable requests_get : str -> nat -> response.

(** The bytes of a file. *)
Variable data : Type.

(** The request of [file_io.download_file] for [url] and the writing of
    its chunks to [destination_path]: [None] when an exception comes before
    the file is created, otherwise the bytes the file holds when the call
    ends (all of them, or those written before an exception). *)
Variable transfer : str -> str -> option data.

(** [ZipFile(...).extractall(output_directory)] on the bytes of an archive:
    the disk afterwards and whether the extraction ran to its end. *)
Variable extractall :
  data -> str -> (str -> option (node data)) -> (str -> option (node data)) * bool.

Definition disk : Type := str -> option (node data).

Record machine : Type := mkMachine {
  process : world;
  files : disk
}.

Definition path_exists_on (d : disk) (p : str) : bool :=
  match d p with Some _ => true | None => false end.

Definition disk_write (d : disk) (p : str) (n : node data) : disk :=
  fun q => if str_eqb q p then Some n else d q.

Definition disk_remove (d : disk) (p : str) : disk :=
  fun q => if str_eqb q p then None else d q.

(** [file_io.download_file]: every exception is caught and printed. *)
Definition download_file (url destination_path : str) (d : disk) : disk :=
  match transfer url destination_path with
  | None => d
  | Some content =>
      match d destination_path with
      | Some Directory => d
      | _ => disk_write d destination_path (File content)
      end
  end.

(** [file_io.unzip_zip] *)
Definition unzip_zip (zip_file output_directory : str) (d : disk)
  : (io_exn + unit) * disk :=
  match d zip_file with
  | None => (inl FileNotFoundError, d)
  | Some Directory => (inl NotAFileError, d)
  | Some (File content) =>
      let (d', done) := extractall content output_directory d in
      (if done then inr tt else inl ExtractionError, d')
  end.

(** [Path.unlink] *)
Definition unlink (p : str) (d : disk) : (io_exn + unit) * disk :=
  match d p with
  | None => (inl FileNotFoundError, d)
  | Some Directory => (inl NotAFileError, d)
  | Some (File _) => (inr tt, disk_remove d p)
  end.

(** [f"{cache_dir}/ue4ss.zip"]; the string names the file. *)
Definition ue4ss_zip_path (cache_dir : str) : str :=
  cache_dir ++ lit "/ue4ss.zip".

(** The last two statements of both install functions. *)
Definition unzip_and_unlink (zip game_exe_directory : str) (m : machine)
  : (install_exn + unit) * machine :=
  match unzip_zip zip game_exe_directory (files m) with
  | (inl e, d) => (inl (RaisedIO e), mkMachine (process m) d)
  | (inr _, d) =>
      match unlink zip d with
      | (inl e, d') => (inl (RaisedIO e), mkMachine (process m) d')
      | (inr _, d') => (inr tt, mkMachine (process m) d')
      end
  end.

(** [if not cached_repo_releases_info: cache_repo_releases_info(...)] *)
Definition ensure_cached (fuel : nat) (w : world)
  : option (result unit * world) :=
  match cached_repo_releases_info w with
  | Some _ => Some (ok tt, w)
  | None =>
      cache_repo_releases_info requests_get fuel (lit "UE4SS-RE")
        (lit "RE-UE4SS") w
  end.

(** The body of [if not ue4ss_zip_path.exists():], from the tag on. *)
Definition fetch_archive (t : option str) (zip : str) (w : world) (d : disk)
  : (install_exn + unit) * machine :=
  match select_installable_asset t w with
  | inl e => (inl (Raised e), mkMachine w d)
  | inr final_download_link =>
      (inr tt, mkMachine w (download_file final_download_link zip d))
  end.

Definition install_ue4ss_to_dir (fuel : nat)
    (cache_dir game_exe_directory : str) (release_tag : option str)
    (m : machine) : option ((install_exn + unit) * machine) :=
  let zip := ue4ss_zip_path cache_dir in
  if path_exists_on (files m) zip then
    Some (unzip_and_unlink zip game_exe_directory m)
  else
    match ensure_cached fuel (process m) with
    | None => None
    | Some (inl e, w) => Some (inl (Raised e), mkMachine w (files m))
    | Some (inr _, w) =>
        match fetch_archive release_tag zip w (files m) with
        | (inl e, m') => Some (inl e, m')
        | (inr _, m') => Some (unzip_and_unlink zip game_exe_directory m')
        end
    end.

Definition install_latest_ue4ss_to_dir (fuel : nat)
    (cache_dir game_exe_directory : str)
    (m : machine) : option ((install_exn + unit) * machine) :=
  let zip := ue4ss_zip_path cache_dir in
  if path_exists_on (files m) zip then
    Some (unzip_and_unlink zip game_exe_directory m)
  else
    match ensure_cached fuel (process m) with
    | None => None
    | Some (inl e, w) => Some (inl (Raised e), mkMachine w (files m))
    | Some (inr _, w) =>
        match get_default_ue4ss_version_tag w with
        | inl e => Some (inl (Raised e), mkMachine w (files m))
        | inr t =>
            match fetch_archive t zip w (files m) with
            | (inl e, m') => Some (inl e, m')
            | (inr _, m') => Some (unzip_and_unlink zip game_exe_directory m')
            end
        end
    end.
End Installer.

Arguments mkMachine {data} process files.
Arguments path_exists_on {data} d p.
Arguments disk_write {data} d p n.
Arguments disk_remove {data} d p.
Arguments download_file {data} transfer url destination_path d.
Arguments unzip_zip {data} extractall zip_file output_directory d.
Arguments unlink {data} p d.
Arguments unzip_and_unlink {data} extractall zip game_exe_directory m.
Arguments fetch_archive {data} transfer t zip w d.
Arguments install_ue4ss_to_dir requests_get {data} transfer extractall
  fuel cache_dir game_exe_directory release_tag m.
Arguments install_latest_ue4ss_to_dir requests_get {data} transfer extractall
  fuel cache_dir game_exe_directory m.
Arguments process {data} m.
Arguments files {data} m.

(** ** More predicates of the statements *)

Definition nonempty (s : str) : bool :=
  match s with [] => false | _ :: _ => true end.

(** The key and the value a key-value line stands for. *)
Definition key_value_of (line : str) : str * str :=
  let (k, v) := split_once EQUALS (strip line) in (strip k, strip v).

Definition is_blank (line : str) : bool := negb (nonempty (strip line)).

(** A settings structure as a caller may build it. *)
Definition sample_sections : list ConfigSection :=
  [mkConfigSection []
     [mkConfigEntry (lit "MajorVersion") (lit "3") []];
   mkConfigSection (lit "[Debug]")
     [mkConfigEntry (lit "ConsoleEnabled") (lit "1")
        [lit "; Whether to enable the console"; lit "Default: 0"];
      mkConfigEntry (lit "GuiConsoleVisible") [] []];
   mkConfigSection (lit "[Empty]") []].

(** A collaborator that cannot download, one that can, and an archive
    library that extracts nothing. *)
Definition no_transfer (url destination_path : str) : option str := None.

Definition sample_transfer (url destination_path : str) : option str :=
  Some (lit "PK").

Definition sample_extractall (content : str) (output_directory : str)
    (d : str -> option (node str)) : (str -> option (node str)) * bool :=
  (d, true).

Definition empty_disk : str -> option (node str) := fun _ => None.

Definition sample_machine : machine str := mkMachine sample_world empty_disk.

Definition sample_cache_dir : str := lit "C:/Temp/ue4ss".
Definition sample_game_dir : str := lit "C:/Games/Demo/Binaries/Win64".

(** A disk with an archive left at the cache path. *)
Definition cached_disk : str -> option (node str) :=
  fun p => if str_eqb p (ue4ss_zip_path sample_cache_dir)
           then Some (File (lit "PK")) else None.

(** A process that holds a catalog of one prerelease. *)
Definition prerelease_world : world :=
  mkWorld (Some (build_catalog sample_owner sample_repo [sample_experimental]))
          [].

Unset Implicit Arguments.

(** ** Strings: basic facts *)

Lemma str_eqb_eq (a b : str) : str_eqb a b = true <-> a = b.
Proof.
  unfold str_eqb. destruct (list_eq_dec ascii_dec a b); split; congruence.
Qed.

Lemma str_eqb_refl (a : str) : str_eqb a a = true.
Proof. now apply str_eqb_eq. Qed.

Lemma opt_str_eqb_eq (a b : option str) : opt_str_eqb a b = true <-> a = b.
Proof.
  destruct a, b; simpl; try rewrite str_eqb_eq; split; congruence.
Qed.

Lemma startswith_spec (p s : str) :
  startswith p s = true <-> exists after, s = p ++ after.
Proof.
  revert s. induction p as [|a p IH]; intros s; simpl.
  - split; eauto.
  - destruct s as [|b s].
    + split; [discriminate | intros [x Hx]; discriminate].
    + destruct (ascii_dec a b) as [->|Hab].
      * rewrite IH. split; intros [x Hx]; exists x; congruence.
      * split; [discriminate | intros [x Hx]; congruence].
Qed.

Lemma contains_spec (p s : str) :
  contains p s = true <-> has_substring p s.
Proof.
  unfold has_substring. induction s as [|c s IH]; simpl.
  - rewrite orb_false_r, startswith_spec. split.
    + intros [x Hx]. now exists [], x.
    + intros (b & a & H). destruct b; [now exists a|discriminate].
  - rewrite orb_true_iff, IH, startswith_spec. split.
    + intros [[x Hx]|(b & a & H)].
      * now exists [], x.
      * exists (c :: b), a. now rewrite H.
    + intros (b & a & H). destruct b as [|c' b].
      * left. now exists a.
      * right. exists b, a. simpl in H. congruence.
Qed.

Lemma installable_spec (link : str) :
  installable link = true <-> qualifies link.
Proof.
  unfold installable, qualifies.
  rewrite andb_true_iff, negb_true_iff, <- not_true_iff_false.
  now rewrite !contains_spec.
Qed.

Lemma installable_false (link : str) :
  installable link = false <-> ~ qualifies link.
Proof.
  rewrite <- installable_spec. now rewrite not_true_iff_false.
Qed.

(** ** Release Selector *)

Lemma find_first_match {A : Type} (f : A -> bool) (before after : list A) (x : A) :
  Forall (fun y => f y = false) before -> f x = true ->
  find f (before ++ x :: after) = Some x.
Proof.
  induction 1 as [|y before Hy _ IH]; intros Hx; simpl.
  - now rewrite Hx.
  - rewrite Hy. now apply IH.
Qed.

Lemma find_no_match {A : Type} (f : A -> bool) (l : list A) :
  Forall (fun y => f y = false) l -> find f l = None.
Proof.
  induction 1 as [|y l Hy _ IH]; simpl; [reflexivity|now rewrite Hy].
Qed.

Lemma Forall_dict_values (P : str -> Prop) (d : dict) :
  Forall (fun kv => P (snd kv)) d -> Forall P (dict_values d).
Proof. unfold dict_values. now rewrite Forall_map. Qed.

(** C1. Selecting the installable asset of a tag returns the link of the
    first entry of the tag's asset map, in the order of the map, whose link
    holds "ue4ss" and does not hold "zdev" once put in lower case; when no
    entry of the map is such, it fails with the error that names the tag. *)
Theorem select_installable_asset_first_qualifying
    (t : option str) (w : world) (d : dict)
    (Hmap : get_file_name_to_download_links_from_tag t w = ok d) :
  (forall before file link after,
      d = before ++ (file, link) :: after ->
      Forall (fun kv => ~ qualifies (snd kv)) before ->
      qualifies link ->
      select_installable_asset t w = ok link)
  /\ (Forall (fun kv => ~ qualifies (snd kv)) d ->
      select_installable_asset t w = raise (NoCompatibleAssetError t)).
Proof.
  unfold select_installable_asset. rewrite Hmap. simpl. split.
  - intros before file link after -> Hbefore Hlink.
    unfold final_download_link, dict_values.
    rewrite map_app. simpl.
    rewrite find_first_match.
    + destruct link as [|c link]; [|reflexivity].
      apply installable_spec in Hlink. discriminate.
    + rewrite Forall_map. eapply Forall_impl; [|exact Hbefore].
      intros kv Hkv. now apply installable_false.
    + now apply installable_spec.
  - intros Hnone. unfold final_download_link.
    rewrite find_no_match; [reflexivity|].
    apply Forall_dict_values. eapply Forall_impl; [|exact Hnone].
    intros kv Hkv. now apply installable_false.
Qed.

(** C4. With a populated catalog the default tag is the first of the
    normal-release tags with assets, and indexing the empty list is the
    failure when there is none. *)
Theorem get_default_ue4ss_version_tag_populated
    (info : RepositoryReleasesInfo) (sent : list request) :
  let w := mkWorld (Some info) sent in
  let normal :=
    map tag (filter (fun t => has_assets t && negb (is_prerelease t))
                    (tags info)) in
  get_normal_release_tags_with_assets w = ok normal
  /\ get_default_ue4ss_version_tag w =
       match normal with
       | [] => raise NoDefaultTagError
       | first :: _ => ok first
       end.
Proof.
  simpl. split; [reflexivity|].
  unfold get_default_ue4ss_version_tag, get_normal_release_tags_with_assets.
  simpl. unfold tags_where.
  now destruct (map tag _).
Qed.

(** C5, as the code has it. Before the catalog is cached, the tag queries
    and the asset map fail with the not-cached error; the default tag does
    not: it is the literal "latest". *)
Theorem selectors_before_cache (sent : list request) (t : option str) :
  let w := mkWorld None sent in
  get_all_tags_with_assets w = raise CatalogNotCachedError
  /\ get_pre_release_tags_with_assets w = raise CatalogNotCachedError
  /\ get_normal_release_tags_with_assets w = raise CatalogNotCachedError
  /\ get_file_name_to_download_links_from_tag t w = raise CatalogNotCachedError
  /\ get_default_ue4ss_version_tag w = ok (Some (lit "latest")).
Proof. simpl. repeat split. Qed.

(** C5 as stated fails for the default tag: asked before any fetch, it
    returns a value. *)
Lemma default_tag_before_cache_returns :
  get_default_ue4ss_version_tag (mkWorld None []) = ok (Some (lit "latest"))
  /\ get_default_ue4ss_version_tag (mkWorld None [])
     <> raise CatalogNotCachedError.
Proof. split; [reflexivity|discriminate]. Qed.

(** ** Release Catalog Client *)

(** C6. Once the catalog is held, caching again changes nothing and sends
    no request, whatever the owner, the repository and the API. *)
Theorem cache_repo_releases_info_noop
    (requests_get : str -> nat -> response) (fuel : nat)
    (owner repo : str) (info : RepositoryReleasesInfo)
    (sent : list request) :
  cache_repo_releases_info requests_get fuel owner repo
    (mkWorld (Some info) sent)
  = Some (ok tt, mkWorld (Some info) sent).
Proof. reflexivity. Qed.

Lemma page_requests_step (url : str) (first n : nat) :
  [mkRequest url first 100] ++ page_requests url (first + 1) n
  = page_requests url first (S n).
Proof. unfold page_requests. simpl. now rewrite Nat.add_1_r. Qed.

Lemma fetch_pages_failure (requests_get : str -> nat -> response) (url : str) :
  forall (n fuel first : nat) (acc : list release_json) (sent : list request),
    (forall p, first <= p < first + n ->
               status_code (requests_get url p) = 200%Z
               /\ json (requests_get url p) <> []) ->
    status_code (requests_get url (first + n)) <> 200%Z ->
    n < fuel ->
    fetch_pages requests_get fuel url first acc sent
    = Some (raise (RemoteAPIError
                     (status_code (requests_get url (first + n)))
                     (text (requests_get url (first + n)))),
            sent ++ page_requests url first (S n)).
Proof.
  induction n as [|n IH]; intros fuel first acc sent Hok Hbad Hfuel;
    (destruct fuel as [|fuel]; [lia|]); simpl.
  - rewrite Nat.add_0_r in *.
    apply Z.eqb_neq in Hbad. now rewrite Hbad.
  - destruct (Hok first ltac:(lia)) as [H200 Hjson].
    apply Z.eqb_eq in H200. rewrite H200. simpl.
    destruct (json (requests_get url first)) as [|r rs] eqn:E; [congruence|].
    rewrite (IH fuel (first + 1)); try lia.
    + replace (first + 1 + n) with (first + S n) by lia.
      rewrite <- app_assoc, page_requests_step. reflexivity.
    + intros p Hp. apply Hok. lia.
    + now replace (first + 1 + n) with (first + S n) by lia.
Qed.

(** C7. When the request for some page [n] is answered with a status other
    than 200 (the pages before it having been served), caching fails with
    the API error that carries this status and the body of the answer, and
    the catalog variable stays unset. *)
Theorem cache_repo_releases_info_failure
    (requests_get : str -> nat -> response) (fuel : nat)
    (owner repo : str) (sent : list request) (n : nat)
    (Hserved : forall p, 1 <= p < 1 + n ->
        status_code (requests_get (releases_url owner repo) p) = 200%Z
        /\ json (requests_get (releases_url owner repo) p) <> [])
    (Hfailed :
        status_code (requests_get (releases_url owner repo) (1 + n)) <> 200%Z)
    (Hfuel : n < fuel) :
  let answer := requests_get (releases_url owner repo) (1 + n) in
  cache_repo_releases_info requests_get fuel owner repo (mkWorld None sent)
  = Some (raise (RemoteAPIError (status_code answer) (text answer)),
          mkWorld None
            (sent ++ page_requests (releases_url owner repo) 1 (S n))).
Proof.
  unfold cache_repo_releases_info, get_all_release_assets.
  cbn [cached_repo_releases_info requests_sent].
  now rewrite (fetch_pages_failure requests_get _ n fuel 1 [] sent).
Qed.

(** ** The order on strings and the sort *)

Ltac cases_ltb :=
  repeat match goal with
         | H : context [(?a <? ?b)%N] |- _ => destruct (N.ltb_spec a b)
         | |- context [(?a <? ?b)%N] => destruct (N.ltb_spec a b)
         end.

Lemma str_ltb_irrefl (a : str) : str_ltb a a = false.
Proof.
  induction a as [|x a IH]; simpl; [reflexivity|].
  cases_ltb; auto; lia.
Qed.

Lemma str_ltb_asym (a b : str) : str_ltb a b = true -> str_ltb b a = false.
Proof.
  revert b. induction a as [|x a IH]; intros [|y b]; simpl; auto;
    try discriminate.
  cases_ltb; auto; try discriminate; lia.
Qed.

Lemma str_ltb_cotrans (a b c : str) :
  str_ltb a c = true -> str_ltb a b = true \/ str_ltb b c = true.
Proof.
  revert b c. induction a as [|x a IH]; intros [|z b] [|y c]; simpl; auto;
    try discriminate.
  cases_ltb; auto; try discriminate; try lia; apply IH.
Qed.

Lemma str_leb_trans (a b c : str) :
  str_leb a b = true -> str_leb b c = true -> str_leb a c = true.
Proof.
  unfold str_leb. rewrite !negb_true_iff. intros Hab Hbc.
  destruct (str_ltb c a) eqn:E; [|reflexivity].
  destruct (str_ltb_cotrans c b a E); congruence.
Qed.

Lemma str_leb_total (a b : str) : str_leb a b = true \/ str_leb b a = true.
Proof.
  unfold str_leb. destruct (str_ltb b a) eqn:E; [|now left].
  right. now rewrite (str_ltb_asym _ _ E).
Qed.

Section SortedFacts.
Variable A : Type.
Variable sort_key : A -> str.

Lemma insert_desc_perm (x : A) (l : list A) :
  Permutation (x :: l) (insert_desc sort_key x l).
Proof.
  induction l as [|y l IH]; simpl; [reflexivity|].
  destruct (str_ltb (sort_key x) (sort_key y)); [|reflexivity].
  rewrite perm_swap. now constructor.
Qed.

Lemma sorted_reverse_perm (l : list A) :
  Permutation l (sorted_reverse sort_key l).
Proof.
  induction l as [|x l IH]; simpl; [constructor|].
  rewrite <- insert_desc_perm. now constructor.
Qed.

Lemma insert_desc_sorted (x : A) (l : list A) :
  StronglySorted (newer_or_same sort_key) l ->
  StronglySorted (newer_or_same sort_key) (insert_desc sort_key x l).
Proof.
  induction 1 as [|y l Hl IH Hy]; simpl.
  - repeat constructor.
  - destruct (str_ltb (sort_key x) (sort_key y)) eqn:E.
    + constructor; [exact IH|].
      rewrite <- insert_desc_perm. constructor; [|exact Hy].
      unfold newer_or_same, str_leb. now rewrite (str_ltb_asym _ _ E).
    + assert (Hxy : newer_or_same sort_key x y).
      { unfold newer_or_same, str_leb. now rewrite E. }
      constructor; [now constructor|].
      constructor; [exact Hxy|].
      eapply Forall_impl; [|exact Hy].
      intros z Hz. unfold newer_or_same in *.
      eapply str_leb_trans; eassumption.
Qed.

Lemma sorted_reverse_sorted (l : list A) :
  StronglySorted (newer_or_same sort_key) (sorted_reverse sort_key l).
Proof.
  induction l as [|x l IH]; simpl; [constructor|].
  now apply insert_desc_sorted.
Qed.

(** Stability: the elements of one key keep the order of the input. *)
Lemma insert_desc_same_key (k : str) (x : A) (l : list A) :
  filter (fun y => str_eqb (sort_key y) k) (insert_desc sort_key x l)
  = filter (fun y => str_eqb (sort_key y) k) (x :: l).
Proof.
  induction l as [|y l IH]; [reflexivity|].
  cbn [insert_desc].
  destruct (str_ltb (sort_key x) (sort_key y)) eqn:E; [|reflexivity].
  cbn [filter] in *. rewrite IH.
  destruct (str_eqb (sort_key x) k) eqn:Ex; [|reflexivity].
  destruct (str_eqb (sort_key y) k) eqn:Ey; [|reflexivity].
  apply str_eqb_eq in Ex, Ey. subst k.
  rewrite Ey, str_ltb_irrefl in E. discriminate.
Qed.

Lemma sorted_reverse_stable (k : str) (l : list A) :
  filter (fun y => str_eqb (sort_key y) k) (sorted_reverse sort_key l)
  = filter (fun y => str_eqb (sort_key y) k) l.
Proof.
  induction l as [|x l IH]; [reflexivity|].
  cbn [sorted_reverse fold_right].
  rewrite insert_desc_same_key. cbn [filter].
  fold (sorted_reverse sort_key l). now rewrite IH.
Qed.
End SortedFacts.

(** ** The catalog *)

Lemma fetch_pages_success (requests_get : str -> nat -> response) (url : str) :
  forall (n fuel first : nat) (acc : list release_json) (sent : list request),
    (forall p, first <= p < first + n ->
               status_code (requests_get url p) = 200%Z
               /\ json (requests_get url p) <> []) ->
    status_code (requests_get url (first + n)) = 200%Z ->
    json (requests_get url (first + n)) = [] ->
    n < fuel ->
    fetch_pages requests_get fuel url first acc sent
    = Some (ok (acc ++ flat_map (fun p => json (requests_get url p))
                                (seq first n)),
            sent ++ page_requests url first (S n)).
Proof.
  induction n as [|n IH]; intros fuel first acc sent Hok Hlast Hempty Hfuel;
    (destruct fuel as [|fuel]; [lia|]); simpl.
  - rewrite Nat.add_0_r in *.
    apply Z.eqb_eq in Hlast. rewrite Hlast, Hempty. simpl.
    now rewrite app_nil_r.
  - destruct (Hok first ltac:(lia)) as [H200 Hjson].
    apply Z.eqb_eq in H200. rewrite H200. simpl.
    destruct (json (requests_get url first)) as [|r rs] eqn:E; [congruence|].
    rewrite (IH fuel (first + 1)); try lia.
    + rewrite <- !app_assoc, page_requests_step, Nat.add_1_r. reflexivity.
    + intros p Hp. apply Hok. lia.
    + now replace (first + 1 + n) with (first + S n) by lia.
    + now replace (first + 1 + n) with (first + S n) by lia.
Qed.

Lemma get_all_release_assets_fetched
    (requests_get : str -> nat -> response) (fuel : nat) (owner repo : str)
    (sent sent' : list request) (all_releases : list release_json) :
  fetch_pages requests_get fuel (releases_url owner repo) 1 [] sent
  = Some (ok all_releases, sent') ->
  get_all_release_assets requests_get fuel owner repo sent
  = Some (ok (build_catalog owner repo all_releases), sent').
Proof.
  unfold get_all_release_assets. now intros ->.
Qed.

Lemma StronglySorted_map {A B : Type} (f : A -> B) (R : B -> B -> Prop)
    (l : list A) :
  StronglySorted (fun a b => R (f a) (f b)) l -> StronglySorted R (map f l).
Proof.
  induction 1 as [|x l Hl IH Hx]; simpl; constructor; auto.
  now rewrite Forall_map.
Qed.

Lemma filter_map_commute {A B : Type} (f : A -> B) (p : B -> bool)
    (l : list A) :
  filter p (map f l) = map f (filter (fun x => p (f x)) l).
Proof.
  induction l as [|x l IH]; simpl; [reflexivity|].
  destruct (p (f x)); simpl; now rewrite IH.
Qed.

Lemma build_catalog_newest_first (owner repo : str) (l : list release_json) :
  newest_first (tags (build_catalog owner repo l)).
Proof.
  unfold newest_first, build_catalog. cbn [tags].
  apply StronglySorted_map. cbn [make_tag_info created_at].
  apply sorted_reverse_sorted.
Qed.

Lemma build_catalog_stable (owner repo : str) (l : list release_json)
    (stamp : str) :
  created_on stamp (tags (build_catalog owner repo l))
  = map (make_tag_info (find_latest_tag (sorted_reverse get_created_at l)))
        (released_on stamp l).
Proof.
  unfold created_on, released_on, build_catalog. cbn [tags].
  rewrite filter_map_commute. cbn [make_tag_info created_at].
  now rewrite sorted_reverse_stable.
Qed.

(** C8. The tags of the catalog built from the fetched releases are in
    order of creation, newest first, and the tags of one creation stamp
    stand in the order in which the API gave their releases. *)
Theorem catalog_tags_newest_first_stable
    (requests_get : str -> nat -> response) (fuel : nat) (owner repo : str)
    (sent sent' : list request) (all_releases : list release_json)
    (Hfetch : fetch_pages requests_get fuel (releases_url owner repo) 1 [] sent
              = Some (ok all_releases, sent')) :
  exists info,
    get_all_release_assets requests_get fuel owner repo sent
    = Some (ok info, sent')
    /\ newest_first (tags info)
    /\ exists latest_tag, forall stamp,
         created_on stamp (tags info)
         = map (make_tag_info latest_tag) (released_on stamp all_releases).
Proof.
  exists (build_catalog owner repo all_releases). split; [|split].
  - now apply get_all_release_assets_fetched.
  - apply build_catalog_newest_first.
  - eexists. intros stamp. apply build_catalog_stable.
Qed.

Lemma find_latest_tag_cases (l : list release_json) :
  (Forall (fun r => get_prerelease r = true) l /\ find_latest_tag l = None)
  \/ exists before r after,
       l = before ++ r :: after
       /\ Forall (fun x => get_prerelease x = true) before
       /\ get_prerelease r = false
       /\ find_latest_tag l = json_tag_name r.
Proof.
  induction l as [|x l IH]; simpl.
  - left. split; [constructor|reflexivity].
  - destruct (get_prerelease x) eqn:E; simpl.
    + destruct IH as [[Hall Hnone]|(before & r & after & -> & Hb & Hr & Hl)].
      * left. split; [now constructor|exact Hnone].
      * right. exists (x :: before), r, after. repeat split; auto.
    + right. exists [], x, l. repeat split; auto.
Qed.

Lemma opt_str_eqb_neq (a b : option str) : a <> b -> opt_str_eqb a b = false.
Proof.
  intros H. destruct (opt_str_eqb a b) eqn:E; [|reflexivity].
  now apply opt_str_eqb_eq in E.
Qed.

Lemma latest_flag_of_distinct (l : list release_json) :
  Forall (fun r => json_tag_name r <> None) l ->
  NoDup (map json_tag_name l) ->
  latest_flag_ok (map (make_tag_info (find_latest_tag l)) l).
Proof.
  intros Hnamed Hdistinct.
  destruct (find_latest_tag_cases l)
    as [[Hall Hnone]|(before & r & after & E & Hb & Hr & Hl)].
  - left. rewrite Hnone, Forall_map.
    rewrite Forall_forall in *. intros x Hx. cbn. split; [now apply Hall|].
    apply opt_str_eqb_neq. now apply Hnamed.
  - right. rewrite Hl. clear Hl. subst l.
    rewrite map_app in Hdistinct. cbn [map] in Hdistinct.
    pose proof (NoDup_remove_2 _ _ _ Hdistinct) as Hfresh.
    exists (map (make_tag_info (json_tag_name r)) before),
           (make_tag_info (json_tag_name r) r),
           (map (make_tag_info (json_tag_name r)) after).
    rewrite map_app. cbn [map]. split; [reflexivity|].
    rewrite !Forall_map. repeat split.
    + rewrite Forall_forall in *. intros x Hx. cbn. split; [now apply Hb|].
      apply opt_str_eqb_neq. intros Heq. apply Hfresh.
      rewrite in_app_iff. left. rewrite <- Heq. now apply in_map.
    + exact Hr.
    + cbn. now apply opt_str_eqb_eq.
    + rewrite Forall_forall. intros x Hx. cbn.
      apply opt_str_eqb_neq. intros Heq. apply Hfresh.
      rewrite in_app_iff. right. rewrite <- Heq. now apply in_map.
Qed.

(** C2, as the code has it. When every fetched release has a tag name and
    no two share one, at most one tag of the catalog is flagged latest: the
    first one, newest first, that is no prerelease; all others are not. *)
Theorem catalog_latest_flag_distinct_tags
    (requests_get : str -> nat -> response) (fuel : nat) (owner repo : str)
    (sent sent' : list request) (all_releases : list release_json)
    (Hfetch : fetch_pages requests_get fuel (releases_url owner repo) 1 [] sent
              = Some (ok all_releases, sent'))
    (Hnamed : Forall (fun r => json_tag_name r <> None) all_releases)
    (Hdistinct : NoDup (map json_tag_name all_releases)) :
  exists info,
    get_all_release_assets requests_get fuel owner repo sent
    = Some (ok info, sent')
    /\ latest_flag_ok (tags info).
Proof.
  exists (build_catalog owner repo all_releases). split.
  - now apply get_all_release_assets_fetched.
  - unfold build_catalog. cbn [tags].
    pose proof (sorted_reverse_perm _ get_created_at all_releases) as Hperm.
    apply latest_flag_of_distinct.
    + eapply Permutation_Forall; eassumption.
    + eapply Permutation_NoDup; [|exact Hdistinct].
      now apply Permutation_map.
Qed.

(** C2 as stated fails: a release the API lists twice is flagged latest
    twice. *)
Lemma latest_flag_twice :
  exists info sent',
    get_all_release_assets twice_api 2 (lit "UE4SS-RE") (lit "RE-UE4SS") []
    = Some (ok info, sent')
    /\ map is_latest (tags info) = [true; true]
    /\ ~ latest_flag_ok (tags info).
Proof.
  eexists. eexists. split; [reflexivity|]. split; [reflexivity|].
  cbv [build_catalog tags].
  intros [Hall|(before & t & after & E & Hb & _ & _ & Ha)].
  - inversion Hall as [|x l [Hpre _] _]. discriminate Hpre.
  - destruct before as [|b0 [|b1 before]]; simpl in E.
    + injection E as _ <-. inversion Ha as [|x l Hx _]. discriminate Hx.
    + injection E as <- _ _. inversion Hb as [|x l [_ Hx] _]. discriminate Hx.
    + injection E as <- _ _. inversion Hb as [|x l [_ Hx] _]. discriminate Hx.
Qed.

(** ** Trimming *)

Lemma lstrip_decomp (s : str) :
  exists a, s = a ++ lstrip s /\ all_space a /\ head_ok (lstrip s).
Proof.
  induction s as [|c s (a & E & Ha & Hh)]; simpl.
  - exists []. repeat split. constructor.
  - destruct (isspace c) eqn:Ec.
    + exists (c :: a). simpl. rewrite <- E. repeat split; auto.
      now constructor.
    + exists []. repeat split; auto. constructor.
Qed.

Lemma lstrip_all_space (a s : str) : all_space a -> lstrip (a ++ s) = lstrip s.
Proof.
  induction 1 as [|c a Hc _ IH]; simpl; [reflexivity|now rewrite Hc].
Qed.

Lemma lstrip_spaces (a : str) : all_space a -> lstrip a = [].
Proof.
  intros H. rewrite <- (app_nil_r a). now rewrite lstrip_all_space.
Qed.

Lemma lstrip_head_ok (s : str) : head_ok s -> lstrip s = s.
Proof.
  destruct s as [|c s]; simpl; [reflexivity|now intros ->].
Qed.

Lemma all_space_rev (a : str) : all_space a -> all_space (rev a).
Proof. apply Forall_rev. Qed.

Lemma strip_unique (a y b : str) :
  all_space a -> all_space b -> trimmed y -> strip (a ++ y ++ b) = y.
Proof.
  intros Ha Hb [Hh Hl]. unfold strip, rstrip.
  rewrite lstrip_all_space by assumption.
  destruct y as [|c y].
  - simpl. now rewrite (lstrip_spaces b Hb).
  - rewrite (lstrip_head_ok ((c :: y) ++ b)) by exact Hh.
    rewrite rev_app_distr, lstrip_all_space by now apply all_space_rev.
    rewrite lstrip_head_ok by exact Hl.
    apply rev_involutive.
Qed.

Lemma strip_decomp (s : str) :
  exists a b,
    s = a ++ strip s ++ b /\ all_space a /\ all_space b /\ trimmed (strip s).
Proof.
  unfold strip, rstrip.
  destruct (lstrip_decomp s) as (a & Ea & Ha & Hu).
  destruct (lstrip_decomp (rev (lstrip s))) as (b & Eb & Hb & Hv).
  set (u := lstrip s) in *. set (w := lstrip (rev u)) in *.
  assert (Eu : u = rev w ++ rev b).
  { rewrite <- rev_app_distr, <- Eb. now rewrite rev_involutive. }
  exists a, (rev b). repeat split.
  - now rewrite <- Eu.
  - exact Ha.
  - now apply all_space_rev.
  - destruct (rev w) as [|c t] eqn:E; [exact I|].
    rewrite Eu in Hu. exact Hu.
  - now rewrite rev_involutive.
Qed.

Lemma strip_trimmed (s : str) : trimmed (strip s).
Proof. destruct (strip_decomp s) as (a & b & _ & _ & _ & H). exact H. Qed.

Lemma strip_id (s : str) : trimmed s -> strip s = s.
Proof.
  intros H. rewrite <- (strip_unique [] s []) at 2; auto; try constructor.
  now rewrite app_nil_r.
Qed.

Lemma strip_pad (a s b : str) :
  all_space a -> all_space b -> strip (a ++ s ++ b) = strip s.
Proof.
  intros Ha Hb.
  destruct (strip_decomp s) as (a' & b' & E & Ha' & Hb' & Ht).
  rewrite E at 1.
  replace (a ++ (a' ++ strip s ++ b') ++ b)
    with ((a ++ a') ++ strip s ++ (b' ++ b))
    by now rewrite <- !app_assoc.
  apply strip_unique; auto; now apply Forall_app.
Qed.

Lemma trimmed_rev (s : str) : trimmed s -> trimmed (rev s).
Proof. intros [H1 H2]. split; [exact H2|now rewrite rev_involutive]. Qed.

Lemma strip_rev (s : str) : strip (rev s) = rev (strip s).
Proof.
  destruct (strip_decomp s) as (a & b & E & Ha & Hb & Ht).
  rewrite E at 1. rewrite !rev_app_distr, <- app_assoc.
  apply strip_unique; auto using all_space_rev, trimmed_rev.
Qed.

(** ** Splitting at the first equals sign *)

Lemma split_once_app (c : ascii) (l r : str) :
  ~ In c l -> split_once c (l ++ c :: r) = (l, r).
Proof.
  induction l as [|x l IH]; simpl; intros H.
  - now destruct (ascii_dec c c).
  - destruct (ascii_dec x c) as [->|Hx]; [tauto|].
    rewrite IH; tauto.
Qed.

Lemma has_char_app (c : ascii) (l r : str) : has_char c (l ++ c :: r) = true.
Proof.
  unfold has_char. rewrite existsb_app. simpl.
  destruct (ascii_dec c c); [|congruence].
  now rewrite orb_true_r.
Qed.

Lemma has_char_split (c : ascii) (s : str) :
  has_char c s = true -> exists l r, s = l ++ c :: r /\ ~ In c l.
Proof.
  unfold has_char. induction s as [|x s IH]; simpl; [discriminate|].
  destruct (ascii_dec x c) as [->|Hx]; simpl.
  - intros _. exists [], s. auto.
  - intros H. destruct (IH H) as (l & r & -> & Hl).
    exists (x :: l), r. split; [reflexivity|].
    simpl. tauto.
Qed.

Lemma has_char_In (c : ascii) (s : str) : has_char c s = true <-> In c s.
Proof.
  unfold has_char. rewrite existsb_exists. split.
  - intros (x & Hx & E). now destruct (ascii_dec x c) as [->|]; [|discriminate].
  - intros H. exists c. split; [exact H|]. now destruct (ascii_dec c c).
Qed.

(** ** The parser, line by line *)

(** C9. A line whose trimmed form holds an equals sign, is no header and
    does not start with a semicolon makes an entry: its key is the trimmed
    text left of the first equals sign, its value the trimmed text right of
    it (further equals signs and all), its comments the pending ones, which
    are cleared; it goes to the open section, or to a new section with the
    empty header when none is open. *)
Theorem parse_line_key_value (p : parser) (line left right : str)
    (Hsplit : strip line = left ++ EQUALS :: right)
    (Hfirst : ~ In EQUALS left)
    (Hheader : is_header (strip line) = false)
    (Hsemi : startswith [SEMI] (strip line) = false) :
  parse_line p line =
  {| sections := sections p;
     current_section :=
       Some (append_entry
               match current_section p with
               | Some open => open
               | None => mkConfigSection [] []
               end
               {| key := strip left;
                  value := strip right;
                  comments := pending_comments p |});
     pending_comments := [] |}.
Proof.
  unfold parse_line. rewrite Hheader, Hsemi. unfold make_entry.
  rewrite Hsplit, has_char_app, split_once_app by exact Hfirst.
  destruct (left ++ EQUALS :: right) as [|c s] eqn:E.
  - now destruct left.
  - now destruct (current_section p).
Qed.

Lemma same_sections_append_current (p q : parser) :
  same_sections p q -> append_current p = append_current q.
Proof. unfold append_current. now intros [-> ->]. Qed.

Lemma parse_line_comment (p : parser) (line : str) :
  is_comment line = true ->
  parse_line p line =
  {| sections := sections p;
     current_section := current_section p;
     pending_comments := pending_comments p ++ [strip line] |}.
Proof.
  unfold is_comment, parse_line.
  destruct (strip line) as [|c s]; [discriminate|].
  destruct (is_header (c :: s)); [discriminate|].
  destruct (startswith [SEMI] (c :: s)); [reflexivity|].
  now destruct (has_char EQUALS (c :: s)).
Qed.

Lemma parse_line_no_entry (p q : parser) (line : str) :
  is_key_value line = false ->
  same_sections p q ->
  same_sections (parse_line p line) (parse_line q line).
Proof.
  unfold is_key_value, parse_line, same_sections, append_current.
  intros Hline [Hs Hc].
  destruct (strip line) as [|c s]; [now split|].
  destruct (is_header (c :: s)); cbn [sections current_section].
  - now rewrite Hs, Hc.
  - destruct (startswith [SEMI] (c :: s)); cbn [sections current_section];
      [now split|].
    destruct (has_char EQUALS (c :: s)); [discriminate|now split].
Qed.

Lemma fold_comments_same (p : parser) (lines : list str) :
  Forall (fun line => is_comment line = true) lines ->
  same_sections (fold_left parse_line lines p) p.
Proof.
  intros H. revert p. induction H as [|line lines Hline _ IH]; intros p.
  - now split.
  - cbn [fold_left]. unfold same_sections in *.
    destruct (IH (parse_line p line)) as [Hs Hc]. rewrite Hs, Hc.
    now rewrite parse_line_comment.
Qed.

Lemma fold_no_entry_same (p q : parser) (lines : list str) :
  Forall (fun line => is_key_value line = false) lines ->
  same_sections p q ->
  same_sections (fold_left parse_line lines p) (fold_left parse_line lines q).
Proof.
  intros H. revert p q. induction H as [|line lines Hline _ IH]; intros p q Hpq.
  - exact Hpq.
  - cbn [fold_left]. apply IH. now apply parse_line_no_entry.
Qed.

(** C10. Comment lines after which no key-value line comes before the end
    of the input leave no trace: the result is that of the input without
    them. *)
Theorem trailing_comments_dropped (raw : str) (before trailing rest : list str)
    (Hlines : read_lines raw = before ++ trailing ++ rest)
    (Htrailing : Forall (fun line => is_comment line = true) trailing)
    (Hrest : Forall (fun line => is_key_value line = false) rest) :
  parse_ue4ss_settings_file raw = parse_lines (before ++ rest).
Proof.
  unfold parse_ue4ss_settings_file, parse_lines.
  rewrite Hlines, !fold_left_app.
  apply same_sections_append_current.
  apply fold_no_entry_same; [exact Hrest|].
  now apply fold_comments_same.
Qed.

(** ** Reading back what was written *)

Lemma LF_neq_CR : LF <> CR.
Proof. discriminate. Qed.

Lemma translate_newlines_app (linesep a b : str) :
  translate_newlines linesep (a ++ b)
  = translate_newlines linesep a ++ translate_newlines linesep b.
Proof. apply flat_map_app. Qed.

Lemma translate_newlines_clean (linesep x : str) :
  clean x -> translate_newlines linesep x = x.
Proof.
  induction 1 as [|c x [Hc _] _ IH]; [reflexivity|].
  unfold translate_newlines in *. cbn [flat_map].
  destruct (ascii_dec c LF); [contradiction|].
  cbn [app]. f_equal. exact IH.
Qed.

Lemma read_lines_from_clean (x : str) :
  clean x -> forall cur rest,
  read_lines_from cur (x ++ rest) = read_lines_from (cur ++ x) rest.
Proof.
  induction 1 as [|c x [Hlf Hcr] _ IH]; intros cur rest.
  - now rewrite app_nil_r.
  - cbn [app read_lines_from]. destruct (ascii_dec c LF); [contradiction|].
    destruct (ascii_dec c CR); [contradiction|].
    rewrite IH, <- app_assoc. reflexivity.
Qed.

Lemma read_lines_from_linesep (linesep cur rest : str) :
  linesep = [LF] \/ linesep = [CR; LF] ->
  read_lines_from cur (linesep ++ rest)
  = (cur ++ [LF]) :: read_lines_from [] rest.
Proof.
  intros [-> | ->]; cbn [app read_lines_from].
  - destruct (ascii_dec LF LF); [reflexivity|congruence].
  - destruct (ascii_dec CR LF) as [E|_]; [discriminate E|].
    destruct (ascii_dec CR CR); [|congruence].
    destruct (ascii_dec LF LF); [reflexivity|congruence].
Qed.

Lemma read_lines_written (linesep : str) (lines : list str) :
  linesep = [LF] \/ linesep = [CR; LF] ->
  Forall clean lines ->
  read_lines (translate_newlines linesep (List.concat (map add_LF lines)))
  = map add_LF lines.
Proof.
  intros Hsep. unfold read_lines.
  induction 1 as [|x lines Hx _ IH]; [reflexivity|].
  cbn [map List.concat]. unfold add_LF at 1.
  rewrite !translate_newlines_app, translate_newlines_clean by exact Hx.
  rewrite <- app_assoc, read_lines_from_clean by exact Hx.
  replace (translate_newlines linesep [LF]) with linesep
    by (unfold translate_newlines; cbn [flat_map];
        destruct (ascii_dec LF LF); [now rewrite app_nil_r|congruence]).
  rewrite read_lines_from_linesep by exact Hsep.
  cbn [app]. f_equal. exact IH.
Qed.

Lemma entry_text_lines (e : ConfigEntry) :
  entry_text e = List.concat (map add_LF (entry_lines e)).
Proof.
  unfold entry_text, entry_lines. rewrite map_app, concat_app.
  cbn [map List.concat]. unfold add_LF at 2.
  now rewrite app_nil_r, <- !app_assoc.
Qed.

Lemma concat_entry_text (l : list ConfigEntry) :
  List.concat (map entry_text l)
  = List.concat (map add_LF (flat_map entry_lines l)).
Proof.
  induction l as [|e l IH]; [reflexivity|].
  cbn [map List.concat flat_map].
  now rewrite map_app, concat_app, IH, entry_text_lines.
Qed.

Lemma section_text_lines (s : ConfigSection) :
  section_text s = List.concat (map add_LF (section_lines s)).
Proof.
  unfold section_text, section_lines.
  rewrite !map_app, !concat_app, concat_entry_text.
  destruct (header s); cbn; [reflexivity|].
  now rewrite app_nil_r.
Qed.

Lemma written_text_lines (l : list ConfigSection) :
  written_text l = List.concat (map add_LF (flat_map section_lines l)).
Proof.
  unfold written_text.
  induction l as [|s l IH]; [reflexivity|].
  cbn [map List.concat flat_map].
  now rewrite map_app, concat_app, IH, section_text_lines.
Qed.

Lemma read_lines_from_cons (cur : str) (c : ascii) (raw : str) :
  read_lines_from cur (c :: raw)
  = if ascii_dec c LF then (cur ++ [LF]) :: read_lines_from [] raw
    else if ascii_dec c CR then
      (cur ++ [LF]) ::
      match raw with
      | c' :: raw'' =>
          if ascii_dec c' LF then read_lines_from [] raw''
          else read_lines_from [] raw
      | [] => []
      end
    else read_lines_from (cur ++ [c]) raw.
Proof.
  destruct raw as [|c' raw'']; cbn [read_lines_from]; [reflexivity|].
  destruct (ascii_dec c LF); [reflexivity|].
  destruct (ascii_dec c CR); [|reflexivity].
  destruct (ascii_dec c' LF); reflexivity.
Qed.

(** The lines a file yields hold no line end but their last character. *)
Lemma read_lines_from_ok (raw : str) :
  (forall cur, clean cur -> Forall line_ok (read_lines_from cur raw))
  /\ (forall c cur, clean cur ->
        Forall line_ok (read_lines_from cur (c :: raw))).
Proof.
  assert (Hline : forall cur, clean cur -> line_ok (cur ++ [LF]))
    by (intros cur Hcur; exists cur; auto).
  assert (Hlast : forall cur, clean cur -> Forall line_ok (read_lines_from cur [])).
  { intros [|c cur] Hcur; cbn [read_lines_from]; constructor; [|constructor].
    exists (c :: cur). auto. }
  assert (Hsnoc : forall cur c, clean cur -> c <> LF -> c <> CR ->
                                clean (cur ++ [c])).
  { intros cur c Hcur Hlf Hcr. apply Forall_app. split; [exact Hcur|].
    constructor; [now split|constructor]. }
  assert (Hnil : clean []) by constructor.
  induction raw as [|d raw [IH1 IH2]].
  - split; [exact Hlast|].
    intros c cur Hcur. rewrite read_lines_from_cons.
    destruct (ascii_dec c LF); [constructor; auto|].
    destruct (ascii_dec c CR); [constructor; auto|].
    apply Hlast. now apply Hsnoc.
  - split; [exact (IH2 d)|].
    intros c cur Hcur. rewrite read_lines_from_cons.
    destruct (ascii_dec c LF); [constructor; auto|].
    destruct (ascii_dec c CR).
    + constructor; [auto|]. destruct (ascii_dec d LF); auto.
    + apply IH2. now apply Hsnoc.
Qed.

Lemma read_lines_ok (raw : str) : Forall line_ok (read_lines raw).
Proof.
  unfold read_lines. apply (proj1 (read_lines_from_ok raw)). constructor.
Qed.

(** ** The written lines, trimmed *)

Lemma all_space_LF : all_space [LF].
Proof. repeat constructor. Qed.

Lemma all_space_SP : all_space [SP].
Proof. repeat constructor. Qed.

Lemma strip_add_LF (x : str) : strip (add_LF x) = strip x.
Proof.
  unfold add_LF. apply (strip_pad [] x [LF]); [constructor|apply all_space_LF].
Qed.

Lemma clean_strip (x : str) : clean x -> clean (strip x).
Proof.
  destruct (strip_decomp x) as (a & b & E & _). intros H.
  unfold clean in *. rewrite E in H.
  apply Forall_app in H as [_ H]. now apply Forall_app in H as [H _].
Qed.

Lemma In_strip (c : ascii) (x : str) : In c (strip x) -> In c x.
Proof.
  destruct (strip_decomp x) as (a & b & E & _). intros H.
  rewrite E, !in_app_iff. auto.
Qed.

Lemma line_ok_strip (line : str) :
  line_ok line -> clean (strip line) /\ trimmed (strip line).
Proof.
  intros (body & Hbody & [-> | ->]); split; try apply strip_trimmed.
  - fold (add_LF body). rewrite strip_add_LF. now apply clean_strip.
  - now apply clean_strip.
Qed.

Lemma head_ok_app (s t : str) : s <> [] -> head_ok s -> head_ok (s ++ t).
Proof. destruct s; [congruence|auto]. Qed.

Lemma startswith1_app (c : ascii) (s t : str) :
  s <> [] -> startswith [c] (s ++ t) = startswith [c] s.
Proof.
  destruct s as [|x s]; [congruence|]. intros _. cbn [app startswith].
  now destruct (ascii_dec c x).
Qed.

Lemma startswith1_cons (c x : ascii) (s : str) :
  c <> x -> startswith [c] (x :: s) = false.
Proof. intros H. cbn [startswith]. now destruct (ascii_dec c x). Qed.

Lemma rev_pad_left (v : str) : rev (pad_left v) = pad_right (rev v).
Proof.
  destruct v as [|x v]; [reflexivity|].
  unfold pad_left. cbn [rev].
  destruct (rev v ++ [x]) eqn:E; [now destruct (rev v)|reflexivity].
Qed.

Lemma rev_pad_right (k : str) : rev (pad_right k) = pad_left (rev k).
Proof.
  rewrite <- (rev_involutive k) at 1.
  now rewrite <- rev_pad_left, rev_involutive.
Qed.

Lemma rev_join (k v : str) : rev (join k v) = join (rev v) (rev k).
Proof.
  unfold join. rewrite rev_app_distr. cbn [rev].
  now rewrite rev_pad_left, rev_pad_right, <- app_assoc.
Qed.

Lemma head_ok_join (k v : str) : head_ok k -> head_ok (join k v).
Proof.
  unfold join. destruct k as [|x k]; [reflexivity|auto].
Qed.

Lemma trimmed_join (k v : str) : trimmed k -> trimmed v -> trimmed (join k v).
Proof.
  intros [Hk _] [_ Hv]. split.
  - now apply head_ok_join.
  - rewrite rev_join. now apply head_ok_join.
Qed.

Lemma starts_join (c : ascii) (k v : str) :
  c <> EQUALS -> startswith [c] (join k v) = startswith [c] k.
Proof.
  intros H. unfold join. destruct k as [|x k].
  - now apply startswith1_cons.
  - unfold pad_right. rewrite <- app_assoc. now apply startswith1_app.
Qed.

Lemma is_header_join (k v : str) :
  is_header (join k v)
  = startswith [LBRACKET] k && startswith [RBRACKET] (rev v).
Proof.
  unfold is_header, endswith. change (rev [RBRACKET]) with [RBRACKET].
  rewrite rev_join, !starts_join; [reflexivity|discriminate|discriminate].
Qed.

Lemma strip_pad_right (k : str) : trimmed k -> strip (pad_right k) = k.
Proof.
  intros H. destruct k as [|x k]; [reflexivity|].
  apply (strip_unique [] (x :: k) [SP]); auto using all_space_SP.
  constructor.
Qed.

Lemma strip_pad_left (v : str) : trimmed v -> strip (pad_left v) = v.
Proof.
  intros H. destruct v as [|x v]; [reflexivity|].
  replace (pad_left (x :: v)) with ([SP] ++ (x :: v) ++ [])
    by (cbn; now rewrite app_nil_r).
  apply strip_unique; auto using all_space_SP. constructor.
Qed.

Lemma strip_entry_line (k v : str) :
  trimmed k -> trimmed v -> strip (add_LF (k ++ lit " = " ++ v)) = join k v.
Proof.
  intros Hk Hv. rewrite strip_add_LF.
  pose proof (trimmed_join k v Hk Hv) as Ht.
  destruct k as [|x k], v as [|y v].
  - reflexivity.
  - replace ([] ++ lit " = " ++ y :: v)
      with ([SP] ++ join [] (y :: v) ++ [])
      by (unfold join; cbn; now rewrite app_nil_r).
    apply strip_unique; auto using all_space_SP. constructor.
  - replace ((x :: k) ++ lit " = " ++ [])
      with ([] ++ join (x :: k) [] ++ [SP])
      by (unfold join, pad_right, pad_left;
          now rewrite <- ?app_assoc, ?app_nil_r).
    apply strip_unique; auto using all_space_SP. constructor.
  - replace ((x :: k) ++ lit " = " ++ y :: v)
      with ([] ++ join (x :: k) (y :: v) ++ [])
      by (unfold join, pad_right, pad_left;
          now rewrite <- ?app_assoc, ?app_nil_r).
    apply strip_unique; auto; constructor.
Qed.

Lemma not_In_pad_right (k : str) : ~ In EQUALS k -> ~ In EQUALS (pad_right k).
Proof.
  destruct k as [|x k]; [auto|]. unfold pad_right.
  rewrite in_app_iff. intros H [H'|[H'|[]]]; [auto|discriminate H'].
Qed.

(** ** Parsing the written lines *)

Lemma parse_line_blank (p : parser) : parse_line p (add_LF []) = p.
Proof. reflexivity. Qed.

Lemma is_comment_add_LF (c : str) : is_comment (add_LF c) = is_comment c.
Proof. unfold is_comment. now rewrite strip_add_LF. Qed.

Lemma parse_line_comment_line (p : parser) (c : str) :
  wf_comment c ->
  parse_line p (add_LF c) =
  {| sections := sections p;
     current_section := current_section p;
     pending_comments := pending_comments p ++ [c] |}.
Proof.
  intros (Ht & _ & Hc).
  rewrite parse_line_comment by now rewrite is_comment_add_LF.
  now rewrite strip_add_LF, strip_id.
Qed.

Lemma parse_line_header_line (p : parser) (h : str) :
  wf_header h ->
  parse_line p (add_LF h) =
  {| sections := append_current p;
     current_section := Some (mkConfigSection h []);
     pending_comments := [] |}.
Proof.
  intros (Ht & _ & Hh). unfold parse_line.
  rewrite strip_add_LF, strip_id, Hh by exact Ht.
  destruct h; [discriminate Hh|reflexivity].
Qed.

Lemma parse_line_entry_line (p : parser) (e : ConfigEntry) :
  wf_entry e ->
  parse_line p (add_LF (key e ++ lit " = " ++ value e)) =
  {| sections := sections p;
     current_section :=
       Some (append_entry
               match current_section p with
               | Some open => open
               | None => mkConfigSection [] []
               end
               {| key := key e; value := value e;
                  comments := pending_comments p |});
     pending_comments := [] |}.
Proof.
  intros (_ & _ & _ & Hk & Hv & Heq & Hsemi & Hhdr).
  pose proof (strip_entry_line (key e) (value e) Hk Hv) as Hstrip.
  rewrite (parse_line_key_value p _ (pad_right (key e)) (pad_left (value e))).
  - now rewrite strip_pad_right, strip_pad_left.
  - exact Hstrip.
  - now apply not_In_pad_right.
  - now rewrite Hstrip, is_header_join.
  - rewrite Hstrip, starts_join; [exact Hsemi|discriminate].
Qed.

Lemma fold_comment_lines (cs : list str) :
  Forall wf_comment cs -> forall p,
  fold_left parse_line (map add_LF cs) p =
  {| sections := sections p;
     current_section := current_section p;
     pending_comments := pending_comments p ++ cs |}.
Proof.
  induction 1 as [|c cs Hc _ IH]; intros p; cbn [map fold_left].
  - rewrite app_nil_r. now destruct p.
  - rewrite IH, parse_line_comment_line by exact Hc.
    cbn. now rewrite <- app_assoc.
Qed.

Lemma fold_entry_lines (p : parser) (e : ConfigEntry) :
  wf_entry e -> pending_comments p = [] ->
  fold_left parse_line (map add_LF (entry_lines e)) p =
  {| sections := sections p;
     current_section :=
       Some (append_entry
               match current_section p with
               | Some open => open
               | None => mkConfigSection [] []
               end e);
     pending_comments := [] |}.
Proof.
  intros He Hp. unfold entry_lines.
  rewrite map_app, fold_left_app. cbn [map fold_left].
  rewrite fold_comment_lines by apply He.
  rewrite parse_line_entry_line by exact He.
  cbn. rewrite Hp. now destruct e.
Qed.

Lemma fold_entries_lines (es : list ConfigEntry) :
  Forall wf_entry es -> forall S h es0,
  fold_left parse_line (map add_LF (flat_map entry_lines es))
    {| sections := S;
       current_section := Some (mkConfigSection h es0);
       pending_comments := [] |}
  = {| sections := S;
       current_section := Some (mkConfigSection h (es0 ++ es));
       pending_comments := [] |}.
Proof.
  induction 1 as [|e es He _ IH]; intros S h es0; cbn [flat_map map fold_left].
  - now rewrite app_nil_r.
  - rewrite map_app, fold_left_app, fold_entry_lines by auto.
    cbn. unfold append_entry. cbn. rewrite IH.
    now rewrite <- app_assoc.
Qed.

Lemma fold_named_section_lines (p : parser) (s : ConfigSection) :
  wf_section s -> named s -> pending_comments p = [] ->
  fold_left parse_line (map add_LF (section_lines s)) p =
  {| sections := append_current p;
     current_section := Some s;
     pending_comments := [] |}.
Proof.
  intros [Hes [Hh|[Hh _]]] Hnamed Hp; [|contradiction].
  unfold section_lines.
  destruct (header s) as [|c h] eqn:E; [contradiction|].
  rewrite <- E in *. cbn [app map fold_left].
  rewrite parse_line_header_line by exact Hh.
  rewrite map_app, fold_left_app, fold_entries_lines by exact Hes.
  cbn. now destruct s.
Qed.

Lemma fold_first_section_lines (s : ConfigSection) :
  wf_section s -> header s = [] ->
  fold_left parse_line (map add_LF (section_lines s)) parser_start =
  {| sections := [];
     current_section := Some s;
     pending_comments := [] |}.
Proof.
  intros [Hes [(_ & _ & Hh)|[_ Hne]]] E; [now rewrite E in Hh|].
  unfold section_lines. rewrite E. cbn [app].
  destruct s as [h [|e es]]; [contradiction|]. cbn in *. subst h.
  inversion Hes as [|? ? He Hes']; subst.
  rewrite !map_app, !fold_left_app, fold_entry_lines by auto.
  cbn [parser_start sections current_section].
  unfold append_entry. cbn [header config_entries app].
  rewrite fold_entries_lines by exact Hes'. reflexivity.
Qed.

Lemma fold_named_sections_lines (l : list ConfigSection) :
  Forall wf_section l -> Forall named l -> forall p,
  pending_comments p = [] ->
  append_current
    (fold_left parse_line (map add_LF (flat_map section_lines l)) p)
  = append_current p ++ l.
Proof.
  induction l as [|s l IH]; intros Hwf Hnamed p Hp; cbn [flat_map map fold_left].
  - now rewrite app_nil_r.
  - inversion Hwf; inversion Hnamed; subst.
    rewrite map_app, fold_left_app, fold_named_section_lines by auto.
    rewrite IH by auto. unfold append_current at 1. cbn.
    now rewrite <- app_assoc.
Qed.

Lemma parse_written_lines (l : list ConfigSection) :
  wf_file l -> parse_lines (map add_LF (flat_map section_lines l)) = l.
Proof.
  intros [Hwf Hnamed]. unfold parse_lines.
  destruct l as [|s l]; [reflexivity|].
  cbn [tl] in Hnamed. inversion Hwf as [|? ? Hs Hl]; subst.
  cbn [flat_map]. rewrite map_app, fold_left_app.
  destruct (header s) as [|c h] eqn:E.
  - rewrite fold_first_section_lines, fold_named_sections_lines by auto.
    reflexivity.
  - assert (Hn : named s) by (unfold named; congruence).
    rewrite fold_named_section_lines, fold_named_sections_lines by auto.
    reflexivity.
Qed.

(** ** What the parser builds is well formed *)

Lemma starts_strip_prefix (c : ascii) (l t : str) :
  head_ok (l ++ t) -> startswith [c] (strip l) = true ->
  startswith [c] (l ++ t) = true.
Proof.
  destruct (strip_decomp l) as (a & b & E & Ha & _).
  destruct (strip l) as [|x u]; [discriminate|].
  intros Hh Hs. rewrite E in *. clear E.
  destruct a as [|y a].
  - cbn [app startswith] in *. now destruct (ascii_dec c x).
  - inversion Ha as [|? ? Hy _]. cbn in Hh. congruence.
Qed.

Lemma make_entry_wf (s : str) (pending : list str) :
  trimmed s -> clean s ->
  is_header s = false -> startswith [SEMI] s = false ->
  has_char EQUALS s = true ->
  Forall wf_comment pending ->
  wf_entry (make_entry s pending).
Proof.
  intros [Hhead Hlast] Hclean Hheader Hsemi Heq Hpending.
  destruct (has_char_split _ _ Heq) as (l & r & -> & Hl).
  unfold make_entry. rewrite split_once_app by exact Hl.
  unfold clean in Hclean. apply Forall_app in Hclean as [Hcl Hcr].
  inversion Hcr as [|? ? _ Hcr']; subst.
  unfold wf_entry. cbn [key value comments].
  repeat split; auto using clean_strip; try apply strip_trimmed.
  - intros H. apply Hl. now apply In_strip.
  - destruct (startswith [SEMI] (strip l)) eqn:E; [|reflexivity].
    now rewrite (starts_strip_prefix _ _ _ Hhead E) in Hsemi.
  - destruct (startswith [LBRACKET] (strip l)) eqn:E1; [|reflexivity].
    destruct (startswith [RBRACKET] (rev (strip r))) eqn:E2; [|reflexivity].
    exfalso. unfold is_header, endswith in Hheader.
    rewrite (starts_strip_prefix _ _ _ Hhead E1) in Hheader.
    change (rev [RBRACKET]) with [RBRACKET] in Hheader.
    rewrite rev_app_distr in Hheader, Hlast.
    cbn [rev] in Hheader, Hlast. rewrite <- !app_assoc in Hheader, Hlast.
    rewrite <- strip_rev in E2.
    now rewrite (starts_strip_prefix _ _ _ Hlast E2) in Hheader.
Qed.

Lemma wf_file_snoc (l : list ConfigSection) (s : ConfigSection) :
  wf_file l -> wf_section s -> named s -> wf_file (l ++ [s]).
Proof.
  intros [Hwf Hn] Hs Hns. split.
  - apply Forall_app. auto.
  - destruct l as [|x l]; [constructor|].
    cbn [tl app] in *. apply Forall_app. auto.
Qed.

Lemma wf_section_append_entry (c : ConfigSection) (e : ConfigEntry) :
  wf_section c -> wf_entry e -> wf_section (append_entry c e).
Proof.
  intros [Hes Hh] He. split; cbn [append_entry config_entries header].
  - apply Forall_app. auto.
  - destruct Hh as [Hh|[Hh _]]; [now left|right].
    split; [exact Hh|]. now destruct (config_entries c).
Qed.

Lemma wf_file_append_entry (l : list ConfigSection) (c : ConfigSection)
    (e : ConfigEntry) :
  wf_file (l ++ [c]) -> wf_entry e -> wf_file (l ++ [append_entry c e]).
Proof.
  intros [Hwf Hn] He.
  apply Forall_app in Hwf as [Hl Hc]. inversion Hc as [|? ? Hc' _]; subst.
  split.
  - apply Forall_app. split; [exact Hl|].
    constructor; [|constructor]. now apply wf_section_append_entry.
  - destruct l as [|x l]; [constructor|].
    cbn [tl app] in *. apply Forall_app in Hn as [Hn1 Hn2].
    apply Forall_app. split; [exact Hn1|].
    inversion Hn2; subst. constructor; [|constructor]. assumption.
Qed.

Lemma parser_inv_start : parser_inv parser_start.
Proof.
  repeat split; constructor.
Qed.

Lemma parse_line_inv (p : parser) (line : str) :
  line_ok line -> parser_inv p -> parser_inv (parse_line p line).
Proof.
  intros Hline (Hfile & Hpending & Hnone).
  destruct (line_ok_strip line Hline) as [Hclean Htrim].
  unfold parse_line.
  destruct (strip line) as [|c s] eqn:E;
    [exact (conj Hfile (conj Hpending Hnone))|].
  rewrite <- E in *.
  assert (Hcomment : is_header (strip line) = false ->
                     startswith [SEMI] (strip line) = true
                     \/ has_char EQUALS (strip line) = false ->
                     wf_comment (strip line)).
  { intros Hh Hc. repeat split; try apply Htrim; [exact Hclean|].
    unfold is_comment. rewrite strip_id, E by exact Htrim.
    rewrite <- E, Hh. destruct Hc as [-> | ->]; [reflexivity|].
    now rewrite orb_true_r. }
  destruct (is_header (strip line)) eqn:Hh.
  - split; [|split]; cbn [pending_comments current_section];
      [|constructor|discriminate].
    unfold append_current at 1. cbn [current_section sections].
    apply wf_file_snoc; [exact Hfile| |].
    + split; [constructor|]. left. now repeat split; try apply Htrim.
    + unfold named. cbn. now rewrite E.
  - destruct (startswith [SEMI] (strip line)) eqn:Hs.
    + split; [exact Hfile|]. split; [|exact Hnone].
      apply Forall_app. auto.
    + destruct (has_char EQUALS (strip line)) eqn:He.
      * pose proof (make_entry_wf (strip line) (pending_comments p)
                      Htrim Hclean Hh Hs He Hpending) as Hentry.
        split; [|split]; cbn [pending_comments current_section];
          [|constructor|discriminate].
        unfold append_current in *. cbn [current_section sections].
        destruct (current_section p) as [open|].
        -- now apply wf_file_append_entry.
        -- rewrite Hnone by reflexivity. cbn [app].
           split; [|constructor]. constructor; [|constructor].
           unfold append_entry. split; cbn [config_entries header app].
           ++ constructor; [exact Hentry|constructor].
           ++ right. split; [reflexivity|discriminate].
      * split; [exact Hfile|]. split; [|exact Hnone].
        apply Forall_app. auto.
Qed.

Lemma fold_parse_line_inv (lines : list str) :
  Forall line_ok lines -> forall p,
  parser_inv p -> parser_inv (fold_left parse_line lines p).
Proof.
  induction 1 as [|line lines Hline _ IH]; intros p Hp; [exact Hp|].
  cbn [fold_left]. apply IH. now apply parse_line_inv.
Qed.

Lemma parse_lines_wf (lines : list str) :
  Forall line_ok lines -> wf_file (parse_lines lines).
Proof.
  intros H. unfold parse_lines.
  now apply (fold_parse_line_inv lines H parser_start parser_inv_start).
Qed.

Lemma clean_entry_lines (e : ConfigEntry) :
  wf_entry e -> Forall clean (entry_lines e).
Proof.
  intros (Hcs & Hk & Hv & _). unfold entry_lines.
  apply Forall_app. split.
  - eapply Forall_impl; [|exact Hcs]. now intros c (_ & Hc & _).
  - constructor; [|constructor].
    apply Forall_app. split; [exact Hk|].
    apply Forall_app. split; [|exact Hv].
    repeat constructor; discriminate.
Qed.

Lemma clean_section_lines (s : ConfigSection) :
  wf_section s -> Forall clean (section_lines s).
Proof.
  intros [Hes Hh]. unfold section_lines.
  apply Forall_app. split; [|apply Forall_app; split].
  - destruct (header s) eqn:E; [constructor|].
    destruct Hh as [(_ & Hc & _)|[Hh _]]; [|discriminate].
    constructor; [exact Hc|constructor].
  - apply Forall_flat_map. eapply Forall_impl; [|exact Hes].
    apply clean_entry_lines.
  - repeat constructor.
Qed.

Lemma clean_file_lines (l : list ConfigSection) :
  wf_file l -> Forall clean (flat_map section_lines l).
Proof.
  intros [Hwf _]. apply Forall_flat_map.
  eapply Forall_impl; [|exact Hwf]. apply clean_section_lines.
Qed.

(** C3. Writing what was parsed and parsing it again gives the same
    sections, headers, entries and comments; this holds for every text, so
    for every text of the shape the writer emits, and for both line
    separators a platform may have. *)
Theorem parse_write_parse (linesep raw : str)
    (Hsep : linesep = [LF] \/ linesep = [CR; LF]) :
  parse_ue4ss_settings_file
    (write_ue4ss_settings_file linesep (parse_ue4ss_settings_file raw))
  = parse_ue4ss_settings_file raw.
Proof.
  assert (Hwf : wf_file (parse_ue4ss_settings_file raw))
    by apply parse_lines_wf, read_lines_ok.
  unfold parse_ue4ss_settings_file at 1, write_ue4ss_settings_file.
  rewrite written_text_lines.
  rewrite read_lines_written by auto using clean_file_lines.
  now apply parse_written_lines.
Qed.

(** ** The statements at sample inputs *)

Lemma select_installable_asset_sample :
  select_installable_asset (Some (lit "v3.0.1")) sample_world
  = ok (browser_download_url sample_main_asset).
Proof.
  refine (proj1 (select_installable_asset_first_qualifying
                   (Some (lit "v3.0.1")) sample_world
                   [(name sample_dev_asset,
                     browser_download_url sample_dev_asset);
                    (name sample_main_asset,
                     browser_download_url sample_main_asset)]
                   eq_refl)
                [(name sample_dev_asset,
                  browser_download_url sample_dev_asset)]
                (name sample_main_asset)
                (browser_download_url sample_main_asset)
                [] eq_refl _ _).
  - constructor; [|constructor]. apply installable_false. reflexivity.
  - apply installable_spec. reflexivity.
Defined.

Lemma catalog_latest_flag_sample :
  exists info,
    get_all_release_assets sample_api 2 sample_owner sample_repo []
    = Some (ok info,
            page_requests (releases_url sample_owner sample_repo) 1 2)
    /\ latest_flag_ok (tags info).
Proof.
  apply (catalog_latest_flag_distinct_tags sample_api 2 sample_owner
           sample_repo [] _ sample_releases eq_refl).
  - repeat constructor; discriminate.
  - repeat constructor; simpl; intuition discriminate.
Defined.

Lemma parse_write_parse_sample :
  parse_ue4ss_settings_file
    (write_ue4ss_settings_file [CR; LF]
       (parse_ue4ss_settings_file sample_settings))
  = parse_ue4ss_settings_file sample_settings.
Proof.
  apply (parse_write_parse [CR; LF] sample_settings). right. reflexivity.
Defined.

Lemma cache_repo_releases_info_failure_sample :
  cache_repo_releases_info limited_api 5 sample_owner sample_repo
    (mkWorld None [])
  = Some (raise (RemoteAPIError 403 (lit "rate limit exceeded")),
          mkWorld None
            (page_requests (releases_url sample_owner sample_repo) 1 2)).
Proof.
  apply (cache_repo_releases_info_failure limited_api 5 sample_owner
           sample_repo [] 1).
  - intros p Hp. assert (p = 1) as -> by lia.
    split; [reflexivity|discriminate].
  - discriminate.
  - lia.
Defined.

Lemma catalog_tags_sample :
  exists info,
    get_all_release_assets sample_api 2 sample_owner sample_repo []
    = Some (ok info,
            page_requests (releases_url sample_owner sample_repo) 1 2)
    /\ newest_first (tags info)
    /\ exists latest_tag, forall stamp,
         created_on stamp (tags info)
         = map (make_tag_info latest_tag) (released_on stamp sample_releases).
Proof.
  apply (catalog_tags_newest_first_stable sample_api 2 sample_owner
           sample_repo [] _ sample_releases).
  reflexivity.
Defined.

Lemma parse_line_key_value_sample :
  parse_line parser_start (lit "  GuiConsoleFontScaling = a=b  " ++ [LF])
  = {| sections := [];
       current_section :=
         Some (mkConfigSection []
                 [mkConfigEntry (lit "GuiConsoleFontScaling") (lit "a=b") []]);
       pending_comments := [] |}.
Proof.
  apply (parse_line_key_value parser_start
           (lit "  GuiConsoleFontScaling = a=b  " ++ [LF])
           (lit "GuiConsoleFontScaling ") (lit " a=b")).
  - reflexivity.
  - simpl. intuition discriminate.
  - reflexivity.
  - reflexivity.
Defined.

Lemma trailing_comments_dropped_sample :
  parse_ue4ss_settings_file sample_settings
  = parse_lines [lit "[Overrides]" ++ [LF];
                 lit "; Path to the mods folder" ++ [LF];
                 lit "ModsFolderPath = " ++ [LF];
                 [LF];
                 lit "[General]" ++ [LF];
                 lit "  bUseUObjectArrayCache=true  " ++ [LF]].
Proof.
  apply (trailing_comments_dropped sample_settings
           [lit "[Overrides]" ++ [LF];
            lit "; Path to the mods folder" ++ [LF];
            lit "ModsFolderPath = " ++ [LF];
            [LF];
            lit "[General]" ++ [LF];
            lit "  bUseUObjectArrayCache=true  " ++ [LF]]
           [lit "; left over" ++ [LF]; lit "stray words" ++ [LF]]
           []).
  - reflexivity.
  - repeat constructor.
  - constructor.
Defined.

(** ** More on the code *)

(** *** The catalog client *)

(** X1. When the API serves [n] pages of releases and then an empty page,
    caching from the unset state stores the catalog built from the releases
    of the pages in page order, and has asked for pages [1] to [n + 1],
    a hundred releases a page. *)
Theorem cache_repo_releases_info_success
    (requests_get : str -> nat -> response) (fuel : nat)
    (owner repo : str) (sent : list request) (n : nat)
    (Hserved : forall p, 1 <= p < 1 + n ->
        status_code (requests_get (releases_url owner repo) p) = 200%Z
        /\ json (requests_get (releases_url owner repo) p) <> [])
    (Hstatus :
        status_code (requests_get (releases_url owner repo) (1 + n)) = 200%Z)
    (Hempty : json (requests_get (releases_url owner repo) (1 + n)) = [])
    (Hfuel : n < fuel) :
  cache_repo_releases_info requests_get fuel owner repo (mkWorld None sent)
  = Some (ok tt,
          mkWorld
            (Some (build_catalog owner repo
                     (flat_map
                        (fun p => json (requests_get (releases_url owner repo) p))
                        (seq 1 n))))
            (sent ++ page_requests (releases_url owner repo) 1 (S n))).
Proof.
  unfold cache_repo_releases_info, get_all_release_assets.
  cbn [cached_repo_releases_info requests_sent].
  now rewrite (fetch_pages_success requests_get _ n fuel 1 [] sent).
Qed.

Lemma cache_repo_releases_info_success_sample :
  cache_repo_releases_info sample_api 2 sample_owner sample_repo
    (mkWorld None [])
  = Some (ok tt,
          mkWorld (Some (build_catalog sample_owner sample_repo
                           (sample_releases ++ [])))
                  (page_requests (releases_url sample_owner sample_repo) 1 2)).
Proof.
  apply (cache_repo_releases_info_success sample_api 2 sample_owner
           sample_repo [] 1).
  - intros p Hp. assert (p = 1) as -> by lia.
    split; [reflexivity|discriminate].
  - reflexivity.
  - reflexivity.
  - lia.
Defined.

(** X2. The catalog holds one tag for each fetched release: the tag names
    of the catalog are those of the releases, each as often, and the owner
    and the repository are the ones asked for. *)
Theorem build_catalog_keeps_releases (o r : str) (l : list release_json) :
  Permutation (map tag (tags (build_catalog o r l))) (map json_tag_name l)
  /\ List.length (tags (build_catalog o r l)) = List.length l
  /\ owner (build_catalog o r l) = o
  /\ repo (build_catalog o r l) = r.
Proof.
  unfold build_catalog. cbn [tags owner repo].
  pose proof (sorted_reverse_perm _ get_created_at l) as Hperm.
  repeat split.
  - rewrite map_map. cbn [make_tag_info tag].
    symmetry. now apply Permutation_map.
  - rewrite length_map. symmetry. now apply Permutation_length.
Qed.

Lemma sorted_reverse_of_sorted {A : Type} (sort_key : A -> str) (l : list A) :
  StronglySorted (newer_or_same sort_key) l -> sorted_reverse sort_key l = l.
Proof.
  induction 1 as [|x l Hl IH Hx]; [reflexivity|].
  cbn [sorted_reverse fold_right]. fold (sorted_reverse sort_key l).
  rewrite IH. destruct l as [|y l]; [reflexivity|].
  cbn [insert_desc]. inversion Hx as [|? ? Hxy _]; subst.
  unfold newer_or_same, str_leb in Hxy. apply negb_true_iff in Hxy.
  now rewrite Hxy.
Qed.

(** X3. When the API lists the releases newest first already, the catalog
    keeps the order of the API. *)
Theorem build_catalog_of_sorted (o r : str) (l : list release_json)
    (Hsorted : StronglySorted (newer_or_same get_created_at) l) :
  tags (build_catalog o r l) = map (make_tag_info (find_latest_tag l)) l.
Proof.
  unfold build_catalog. cbn [tags].
  now rewrite sorted_reverse_of_sorted.
Qed.

Lemma build_catalog_of_sorted_sample :
  tags (build_catalog sample_owner sample_repo
          [sample_experimental; sample_stable; sample_old])
  = map (make_tag_info (Some (lit "v3.0.1")))
        [sample_experimental; sample_stable; sample_old].
Proof.
  apply (build_catalog_of_sorted sample_owner sample_repo
           [sample_experimental; sample_stable; sample_old]).
  repeat constructor.
Defined.

(** *** The selectors *)

Lemma filter_split_perm {A : Type} (f g : A -> bool) (l : list A) :
  Permutation (filter f l)
    (filter (fun x => f x && g x) l ++ filter (fun x => f x && negb (g x)) l).
Proof.
  induction l as [|x l IH]; [constructor|].
  cbn [filter]. destruct (f x), (g x); cbn [andb negb app]; auto.
  rewrite IH. apply Permutation_middle.
Qed.

(** X4. With a catalog held, the tags with assets are the prerelease tags
    with assets together with the normal-release tags with assets, each tag
    as often as in the catalog. *)
Theorem tags_with_assets_partition
    (info : RepositoryReleasesInfo) (sent : list request) :
  exists every pre normal,
    get_all_tags_with_assets (mkWorld (Some info) sent) = ok every
    /\ get_pre_release_tags_with_assets (mkWorld (Some info) sent) = ok pre
    /\ get_normal_release_tags_with_assets (mkWorld (Some info) sent)
       = ok normal
    /\ Permutation every (pre ++ normal)
    /\ List.length every = List.length pre + List.length normal.
Proof.
  eexists. eexists. eexists.
  split; [reflexivity|]. split; [reflexivity|]. split; [reflexivity|].
  unfold tags_where.
  assert (H : Permutation
                (map tag (filter has_assets (tags info)))
                (map tag (filter (fun t => has_assets t && is_prerelease t)
                                 (tags info))
                 ++ map tag (filter (fun t => has_assets t
                                              && negb (is_prerelease t))
                                    (tags info)))).
  { rewrite <- map_app. apply Permutation_map, filter_split_perm. }
  split; [exact H|].
  rewrite <- length_app. now apply Permutation_length.
Qed.

Lemma links_of_tag_absent (l : list ReleaseAssetInfo) (t : option str) :
  Forall (fun ti => tag ti <> t) l -> links_of_tag l t = [].
Proof.
  induction 1 as [|ti l Hti _ IH]; [reflexivity|].
  cbn [links_of_tag]. now rewrite (opt_str_eqb_neq _ _ Hti).
Qed.

Lemma links_of_tag_first (before after : list ReleaseAssetInfo)
    (ti : ReleaseAssetInfo) (t : option str) :
  Forall (fun x => tag x <> t) before -> tag ti = t ->
  links_of_tag (before ++ ti :: after) t = dict_of_assets (assets ti).
Proof.
  induction 1 as [|x before Hx _ IH]; intros Hti; cbn [app links_of_tag].
  - now rewrite (proj2 (opt_str_eqb_eq _ _) Hti).
  - rewrite (opt_str_eqb_neq _ _ Hx). now apply IH.
Qed.

(** X5. A tag the catalog does not hold has the empty asset map, which is
    no error; selecting its installable asset then fails with the error
    that names the tag. *)
Theorem unknown_tag_no_asset
    (info : RepositoryReleasesInfo) (sent : list request) (t : option str)
    (Habsent : Forall (fun ti => tag ti <> t) (tags info)) :
  get_file_name_to_download_links_from_tag t (mkWorld (Some info) sent)
  = ok []
  /\ select_installable_asset t (mkWorld (Some info) sent)
     = raise (NoCompatibleAssetError t).
Proof.
  unfold select_installable_asset, get_file_name_to_download_links_from_tag.
  cbn [cached_repo_releases_info].
  now rewrite links_of_tag_absent.
Qed.

Lemma unknown_tag_no_asset_sample :
  get_file_name_to_download_links_from_tag (Some (lit "v9.9.9")) sample_world
  = ok []
  /\ select_installable_asset (Some (lit "v9.9.9")) sample_world
     = raise (NoCompatibleAssetError (Some (lit "v9.9.9"))).
Proof.
  apply (unknown_tag_no_asset
           (build_catalog sample_owner sample_repo sample_releases) []).
  repeat constructor; discriminate.
Defined.

(** The asset map as a dictionary. *)

Lemma dict_set_keys (d : dict) (k v : str) :
  (In k (map fst d) /\ map fst (dict_set d k v) = map fst d)
  \/ (~ In k (map fst d) /\ map fst (dict_set d k v) = map fst d ++ [k]).
Proof.
  induction d as [|[k' v'] d IH]; [right; split; [intros []|reflexivity]|].
  cbn [dict_set]. destruct (str_eqb k' k) eqn:E.
  - apply str_eqb_eq in E. subst k'. left. split; [now left|reflexivity].
  - assert (k' <> k) by (intros ->; now rewrite str_eqb_refl in E).
    cbn [map fst]. destruct IH as [[Hin ->]|[Hout ->]].
    + left. split; [now right|reflexivity].
    + right. split; [|reflexivity]. intros [|]; auto.
Qed.

Lemma dict_set_NoDup (d : dict) (k v : str) :
  NoDup (map fst d) -> NoDup (map fst (dict_set d k v)).
Proof.
  intros H. destruct (dict_set_keys d k v) as [[_ ->]|[Hout ->]]; [exact H|].
  apply NoDup_app; [exact H|repeat constructor; auto|].
  intros x Hx [<-|[]]. contradiction.
Qed.

Lemma dict_set_In_same (d : dict) (k v : str) : In (k, v) (dict_set d k v).
Proof.
  induction d as [|[k' v'] d IH]; [now left|].
  cbn [dict_set]. destruct (str_eqb k' k) eqn:E.
  - apply str_eqb_eq in E. subst. now left.
  - now right.
Qed.

Lemma dict_set_In_other (d : dict) (k v k' v' : str) :
  k' <> k -> In (k', v') d -> In (k', v') (dict_set d k v).
Proof.
  intros Hk. induction d as [|[k0 v0] d IH]; [contradiction|].
  cbn [dict_set]. intros [E|H].
  - injection E as -> ->.
    destruct (str_eqb k' k) eqn:E; [|now left].
    now apply str_eqb_eq in E.
  - destruct (str_eqb k0 k); right; auto.
Qed.

Lemma dict_fold_NoDup (l : list ReleaseTagAssetInfo) (d : dict) :
  NoDup (map fst d) ->
  NoDup (map fst (fold_left
                    (fun d asset =>
                       dict_set d (file_name asset) (download_link asset))
                    l d)).
Proof.
  revert d. induction l as [|a l IH]; intros d H; [exact H|].
  cbn [fold_left]. apply IH. now apply dict_set_NoDup.
Qed.

Lemma dict_fold_keeps (l : list ReleaseTagAssetInfo) (d : dict) (k v : str) :
  Forall (fun b => file_name b <> k) l -> In (k, v) d ->
  In (k, v) (fold_left
               (fun d asset =>
                  dict_set d (file_name asset) (download_link asset))
               l d).
Proof.
  intros H. revert d. induction H as [|b l Hb _ IH]; intros d Hd; [exact Hd|].
  cbn [fold_left]. apply IH. apply dict_set_In_other; auto.
Qed.

(** X6. The asset map of a release has each file name once, and under a
    file name the link of the last asset of that name. *)
Theorem dict_of_assets_last_wins (l : list ReleaseTagAssetInfo) :
  NoDup (map fst (dict_of_assets l))
  /\ forall before a after,
       l = before ++ a :: after ->
       Forall (fun b => file_name b <> file_name a) after ->
       In (file_name a, download_link a) (dict_of_assets l).
Proof.
  unfold dict_of_assets. split.
  - apply dict_fold_NoDup. constructor.
  - intros before a after -> Hafter.
    rewrite fold_left_app. cbn [fold_left].
    apply dict_fold_keeps; [exact Hafter|]. apply dict_set_In_same.
Qed.

Lemma dict_fold_distinct (l : list ReleaseTagAssetInfo) (d : dict) :
  NoDup (map fst d ++ map file_name l) ->
  fold_left (fun d asset => dict_set d (file_name asset) (download_link asset))
            l d
  = d ++ map (fun a => (file_name a, download_link a)) l.
Proof.
  revert d. induction l as [|a l IH]; intros d H; cbn [fold_left map].
  - now rewrite app_nil_r.
  - assert (Hset : dict_set d (file_name a) (download_link a)
                   = d ++ [(file_name a, download_link a)]).
    { apply NoDup_remove_2 in H. clear IH.
      assert (Hn : ~ In (file_name a) (map fst d))
        by (intros Hin; apply H, in_or_app; now left).
      clear H. induction d as [|[k v] d IHd]; [reflexivity|].
      cbn [dict_set app]. destruct (str_eqb k (file_name a)) eqn:E.
      - apply str_eqb_eq in E. exfalso. apply Hn. now left.
      - f_equal. apply IHd. intros Hin. apply Hn. now right. }
    rewrite Hset, IH.
    + now rewrite <- app_assoc.
    + rewrite map_app. cbn [map fst]. rewrite <- app_assoc. exact H.
Qed.

(** X7. When the assets of a release have distinct file names, the asset
    map lists them in the order of the release. *)
Theorem dict_of_assets_distinct (l : list ReleaseTagAssetInfo)
    (Hnames : NoDup (map file_name l)) :
  dict_of_assets l = map (fun a => (file_name a, download_link a)) l.
Proof.
  unfold dict_of_assets. now rewrite dict_fold_distinct.
Qed.

Lemma dict_of_assets_distinct_sample :
  dict_of_assets (map make_asset [sample_dev_asset; sample_main_asset])
  = [(name sample_dev_asset, browser_download_url sample_dev_asset);
     (name sample_main_asset, browser_download_url sample_main_asset)].
Proof.
  apply (dict_of_assets_distinct
           (map make_asset [sample_dev_asset; sample_main_asset])).
  repeat constructor; simpl; intuition discriminate.
Defined.

Lemma filter_first {A : Type} (f : A -> bool) (before after : list A) (x : A) :
  Forall (fun y => f y = false) before -> f x = true ->
  filter f (before ++ x :: after) = x :: filter f after.
Proof.
  induction 1 as [|y before Hy _ IH]; intros Hx; cbn [app filter].
  - now rewrite Hx.
  - rewrite Hy. now apply IH.
Qed.

(** X8. With a catalog held, the default tag is the newest tag that has
    assets and is no prerelease: tags without assets and prereleases before
    it are passed over. *)
Theorem default_tag_is_newest_normal_with_assets
    (info : RepositoryReleasesInfo) (sent : list request)
    (before after : list ReleaseAssetInfo) (t : ReleaseAssetInfo)
    (Htags : tags info = before ++ t :: after)
    (Hbefore : Forall (fun x => has_assets x = false \/ is_prerelease x = true)
                      before)
    (Hassets : has_assets t = true)
    (Hnormal : is_prerelease t = false) :
  get_default_ue4ss_version_tag (mkWorld (Some info) sent) = ok (tag t).
Proof.
  unfold get_default_ue4ss_version_tag, get_normal_release_tags_with_assets.
  cbn [cached_repo_releases_info bind]. unfold tags_where.
  rewrite Htags, filter_first; [reflexivity| |].
  - eapply Forall_impl; [|exact Hbefore].
    intros x [-> | ->]; [reflexivity|apply andb_false_r].
  - now rewrite Hassets, Hnormal.
Qed.

Lemma default_tag_sample :
  get_default_ue4ss_version_tag sample_world = ok (Some (lit "v3.0.1")).
Proof.
  apply (default_tag_is_newest_normal_with_assets
           (build_catalog sample_owner sample_repo sample_releases) []
           [make_tag_info (Some (lit "v3.0.1")) sample_experimental]
           [make_tag_info (Some (lit "v3.0.1")) sample_old]
           (make_tag_info (Some (lit "v3.0.1")) sample_stable)).
  - reflexivity.
  - repeat constructor.
  - reflexivity.
  - reflexivity.
Defined.

(** X9. For the first tag info of the asked name, when its assets have
    distinct file names, the asset selected for install is the first asset
    of the release, in the order of the release, whose link qualifies. *)
Theorem select_installable_asset_in_release_order
    (info : RepositoryReleasesInfo) (sent : list request) (t : option str)
    (before after : list ReleaseAssetInfo) (ti : ReleaseAssetInfo)
    (unfit rest : list ReleaseTagAssetInfo) (a : ReleaseTagAssetInfo)
    (Htags : tags info = before ++ ti :: after)
    (Hbefore : Forall (fun x => tag x <> t) before)
    (Htag : tag ti = t)
    (Hassets : assets ti = unfit ++ a :: rest)
    (Hnames : NoDup (map file_name (assets ti)))
    (Hunfit : Forall (fun b => ~ qualifies (download_link b)) unfit)
    (Hfit : qualifies (download_link a)) :
  select_installable_asset t (mkWorld (Some info) sent)
  = ok (download_link a).
Proof.
  unfold select_installable_asset, get_file_name_to_download_links_from_tag.
  cbn [cached_repo_releases_info bind ok].
  rewrite Htags, links_of_tag_first by assumption.
  unfold dict_of_assets. rewrite dict_fold_distinct by exact Hnames.
  cbn [app]. unfold final_download_link, dict_values.
  rewrite Hassets, map_map, map_app. cbn [map snd].
  rewrite find_first_match.
  - destruct (download_link a) as [|c link] eqn:E; [|reflexivity].
    apply installable_spec in Hfit. discriminate.
  - rewrite Forall_map. eapply Forall_impl; [|exact Hunfit].
    intros b Hb. now apply installable_false.
  - now apply installable_spec.
Qed.

Lemma select_installable_asset_in_release_order_sample :
  select_installable_asset (Some (lit "v3.0.1")) sample_world
  = ok (browser_download_url sample_main_asset).
Proof.
  apply (select_installable_asset_in_release_order
           (build_catalog sample_owner sample_repo sample_releases) []
           (Some (lit "v3.0.1"))
           [make_tag_info (Some (lit "v3.0.1")) sample_experimental]
           [make_tag_info (Some (lit "v3.0.1")) sample_old]
           (make_tag_info (Some (lit "v3.0.1")) sample_stable)
           [make_asset sample_dev_asset] [] (make_asset sample_main_asset)).
  - reflexivity.
  - repeat constructor; discriminate.
  - reflexivity.
  - reflexivity.
  - repeat constructor; simpl; intuition discriminate.
  - constructor; [|constructor]. apply installable_false. reflexivity.
  - apply installable_spec. reflexivity.
Defined.

(** *** The settings parser *)

Lemma is_header_nonempty (s : str) : is_header s = true -> nonempty s = true.
Proof. now destruct s. Qed.

Lemma parse_line_cases (p : parser) (line : str) :
  (is_header (strip line) = true
   /\ parse_line p line =
      {| sections := append_current p;
         current_section := Some (mkConfigSection (strip line) []);
         pending_comments := [] |})
  \/ (is_header (strip line) = false /\ is_key_value line = true
      /\ parse_line p line =
         {| sections := sections p;
            current_section :=
              Some (append_entry
                      match current_section p with
                      | None => mkConfigSection [] []
                      | Some s => s
                      end
                      (make_entry (strip line) (pending_comments p)));
            pending_comments := [] |})
  \/ (is_header (strip line) = false /\ is_key_value line = false
      /\ same_sections (parse_line p line) p).
Proof.
  unfold parse_line, is_key_value, same_sections.
  destruct (strip line) as [|c s] eqn:E.
  - right. right. repeat split.
  - destruct (is_header (c :: s)); [now left|right].
    destruct (startswith [SEMI] (c :: s)); [right; now repeat split|].
    destruct (has_char EQUALS (c :: s)); [left|right]; now repeat split.
Qed.

(** X10. What the parser builds has the shape the writer can give back:
    every header but a leading empty one is a trimmed bracketed line, every
    key and value is trimmed and on one line, no key holds an equals sign or
    starts with a semicolon, every comment is a trimmed comment line. *)
Theorem parse_result_well_formed (raw : str) :
  wf_file (parse_ue4ss_settings_file raw).
Proof. apply parse_lines_wf, read_lines_ok. Qed.

(** X11. Writing a well-formed structure and parsing the file gives the
    structure back, with either line separator. *)
Theorem write_then_parse (linesep : str) (l : list ConfigSection)
    (Hsep : linesep = [LF] \/ linesep = [CR; LF])
    (Hwf : wf_file l) :
  parse_ue4ss_settings_file (write_ue4ss_settings_file linesep l) = l.
Proof.
  unfold parse_ue4ss_settings_file, write_ue4ss_settings_file.
  rewrite written_text_lines.
  rewrite read_lines_written by auto using clean_file_lines.
  now apply parse_written_lines.
Qed.

Lemma wf_comment_check (c : str) :
  strip c = c -> clean c -> is_comment c = true -> wf_comment c.
Proof.
  intros Hs Hc Hi. repeat split; auto; rewrite <- Hs; apply strip_trimmed.
Qed.

Lemma wf_entry_check (k v : str) (cs : list str) :
  Forall wf_comment cs -> strip k = k -> strip v = v -> clean k -> clean v ->
  has_char EQUALS k = false -> startswith [SEMI] k = false ->
  startswith [LBRACKET] k && startswith [RBRACKET] (rev v) = false ->
  wf_entry (mkConfigEntry k v cs).
Proof.
  intros Hcs Hk Hv Hck Hcv He Hs Hh. unfold wf_entry. cbn [key value comments].
  repeat split; auto;
    try (rewrite <- Hk; apply strip_trimmed);
    try (rewrite <- Hv; apply strip_trimmed).
  intros Hin. apply has_char_In in Hin. congruence.
Qed.

Lemma clean_check (s : str) :
  forallb (fun c => negb (if ascii_dec c LF then true else false)
                    && negb (if ascii_dec c CR then true else false)) s = true ->
  clean s.
Proof.
  intros H. apply Forall_forall. intros c Hc.
  rewrite forallb_forall in H. specialize (H c Hc).
  destruct (ascii_dec c LF), (ascii_dec c CR); try discriminate. now split.
Qed.

Lemma wf_header_check (h : str) :
  strip h = h -> clean h -> is_header h = true -> wf_header h.
Proof.
  intros Hs Hc Hh. repeat split; auto; rewrite <- Hs; apply strip_trimmed.
Qed.

Ltac check_clean := apply clean_check; reflexivity.

Ltac check_comment :=
  apply wf_comment_check; [reflexivity|check_clean|reflexivity].

Ltac check_entry :=
  apply wf_entry_check;
  [repeat (constructor; [check_comment|]); constructor
  |reflexivity|reflexivity|check_clean|check_clean
  |reflexivity|reflexivity|reflexivity].

Ltac check_header :=
  apply wf_header_check; [reflexivity|check_clean|reflexivity].

Lemma sample_sections_wf : wf_file sample_sections.
Proof.
  split.
  - constructor; [|constructor; [|constructor; [|constructor]]].
    + split; [constructor; [check_entry|constructor]|].
      right. split; [reflexivity|discriminate].
    + split; [|left; check_header].
      constructor; [check_entry|constructor; [check_entry|constructor]].
    + split; [constructor|left; check_header].
  - repeat constructor; discriminate.
Qed.

Lemma write_then_parse_sample :
  parse_ue4ss_settings_file (write_ue4ss_settings_file [CR; LF] sample_sections)
  = sample_sections.
Proof.
  apply (write_then_parse [CR; LF] sample_sections).
  - right. reflexivity.
  - exact sample_sections_wf.
Defined.

Lemma append_current_entry (p : parser) (e : ConfigEntry) :
  exists l c,
    append_current p ++ match current_section p with
                        | None => [mkConfigSection [] []]
                        | Some _ => []
                        end
    = l ++ [c]
    /\ sections p ++ [append_entry
                        match current_section p with
                        | None => mkConfigSection [] []
                        | Some s => s
                        end e]
       = l ++ [append_entry c e].
Proof.
  unfold append_current. destruct (current_section p) as [c|].
  - exists (sections p), c. now rewrite app_nil_r.
  - exists (sections p), (mkConfigSection [] []). auto.
Qed.

Lemma headers_step (p : parser) (line : str) :
  filter nonempty (map header (append_current (parse_line p line)))
  = filter nonempty (map header (append_current p))
    ++ (if is_header (strip line) then [strip line] else []).
Proof.
  destruct (parse_line_cases p line)
    as [[Hh ->]|[(Hh & Hkv & ->)|(Hh & Hkv & Hsame)]]; rewrite Hh.
  - unfold append_current at 1. cbn [current_section sections].
    rewrite map_app, filter_app. cbn [map filter header].
    now rewrite (is_header_nonempty _ Hh).
  - rewrite app_nil_r. unfold append_current at 1.
    cbn [current_section sections].
    destruct (append_current_entry p
                (make_entry (strip line) (pending_comments p)))
      as (l & c & E1 & E2).
    assert (Hm : map header (l ++ [append_entry c
                                     (make_entry (strip line)
                                        (pending_comments p))])
                 = map header (l ++ [c]))
      by now rewrite !map_app.
    rewrite E2, Hm, <- E1, map_app, filter_app.
    destruct (current_section p); cbn [map filter header nonempty];
      now rewrite app_nil_r.
  - rewrite app_nil_r. now rewrite (same_sections_append_current _ _ Hsame).
Qed.

(** X12. The named sections of the result are the header lines of the
    input, trimmed, in their order and as often as they occur. *)
Theorem parse_lines_headers (lines : list str) :
  filter nonempty (map header (parse_lines lines))
  = filter is_header (map strip lines).
Proof.
  unfold parse_lines.
  enough (H : forall p,
             filter nonempty
               (map header (append_current (fold_left parse_line lines p)))
             = filter nonempty (map header (append_current p))
               ++ filter is_header (map strip lines))
    by apply (H parser_start).
  induction lines as [|line lines IH]; intros p; cbn [fold_left map filter].
  - now rewrite app_nil_r.
  - rewrite IH, headers_step, <- app_assoc.
    now destruct (is_header (strip line)).
Qed.

Lemma make_entry_key_value (line : str) (pending : list str) :
  (key (make_entry (strip line) pending),
   value (make_entry (strip line) pending))
  = key_value_of line.
Proof.
  unfold make_entry, key_value_of.
  now destruct (split_once EQUALS (strip line)).
Qed.

Lemma entries_step (p : parser) (line : str) :
  map (fun e => (key e, value e))
      (flat_map config_entries (append_current (parse_line p line)))
  = map (fun e => (key e, value e))
        (flat_map config_entries (append_current p))
    ++ (if is_key_value line then [key_value_of line] else []).
Proof.
  destruct (parse_line_cases p line)
    as [[Hh ->]|[(Hh & Hkv & ->)|(Hh & Hkv & Hsame)]].
  - assert (Hkv : is_key_value line = false)
      by (unfold is_key_value; now rewrite Hh).
    rewrite Hkv, app_nil_r. unfold append_current at 1.
    cbn [current_section sections].
    rewrite flat_map_app. cbn. now rewrite app_nil_r.
  - rewrite Hkv. unfold append_current at 1.
    cbn [current_section sections].
    destruct (append_current_entry p
                (make_entry (strip line) (pending_comments p)))
      as (l & c & E1 & E2).
    rewrite E2, flat_map_app. cbn [flat_map append_entry config_entries].
    rewrite app_nil_r, app_assoc.
    replace (flat_map config_entries l ++ config_entries c)
      with (flat_map config_entries (l ++ [c]))
      by (rewrite flat_map_app; cbn; now rewrite app_nil_r).
    rewrite <- E1, flat_map_app, map_app, map_app. cbn [map].
    rewrite make_entry_key_value.
    destruct (current_section p); cbn; now rewrite ?app_nil_r.
  - rewrite Hkv, app_nil_r.
    now rewrite (same_sections_append_current _ _ Hsame).
Qed.

(** X13. The keys and values of the result, section after section, are
    those of the key-value lines of the input, in their order: none is
    lost, merged or moved, also when a key comes twice. *)
Theorem parse_lines_entries (lines : list str) :
  map (fun e => (key e, value e))
      (flat_map config_entries (parse_lines lines))
  = map key_value_of (filter (fun line => is_key_value line) lines).
Proof.
  unfold parse_lines.
  enough (H : forall p,
             map (fun e => (key e, value e))
               (flat_map config_entries
                  (append_current (fold_left parse_line lines p)))
             = map (fun e => (key e, value e))
                   (flat_map config_entries (append_current p))
               ++ map key_value_of
                      (filter (fun line => is_key_value line) lines))
    by apply (H parser_start).
  induction lines as [|line lines IH]; intros p; cbn [fold_left map filter].
  - now rewrite app_nil_r.
  - rewrite IH, entries_step, <- app_assoc.
    now destruct (is_key_value line).
Qed.

(** X14. A text without header line and without key-value line (empty,
    blank, or comments only) parses to no section at all. *)
Theorem parse_without_sections (raw : str)
    (Hlines : Forall (fun line => is_header (strip line) = false
                                  /\ is_key_value line = false)
                     (read_lines raw)) :
  parse_ue4ss_settings_file raw = [].
Proof.
  unfold parse_ue4ss_settings_file, parse_lines.
  enough (H : forall p,
             same_sections (fold_left parse_line (read_lines raw) p) p).
  { now rewrite (same_sections_append_current _ _ (H parser_start)). }
  induction Hlines as [|line lines [Hh Hkv] _ IH]; intros p; [now split|].
  cbn [fold_left].
  destruct (parse_line_cases p line)
    as [[Hh' _]|[(_ & Hkv' & _)|(_ & _ & Hsame)]]; try congruence.
  destruct (IH (parse_line p line)) as [E1 E2].
  destruct Hsame as [E3 E4]. split; congruence.
Qed.

Lemma parse_without_sections_sample :
  parse_ue4ss_settings_file
    (lit "; only a note" ++ [LF; LF] ++ lit "  stray words" ++ [CR; LF])
  = [].
Proof.
  apply (parse_without_sections
           (lit "; only a note" ++ [LF; LF] ++ lit "  stray words" ++ [CR; LF])).
  repeat constructor.
Defined.

(** X15. Blank lines change nothing: the result is that of the input
    without them, so a blank line does not end a run of comments. *)
Theorem parse_lines_without_blank (lines : list str) :
  parse_lines (filter (fun line => negb (is_blank line)) lines)
  = parse_lines lines.
Proof.
  unfold parse_lines. f_equal. generalize parser_start.
  induction lines as [|line lines IH]; intros p; [reflexivity|].
  cbn [filter fold_left]. unfold is_blank at 1.
  destruct (strip line) as [|c s] eqn:E; cbn [nonempty negb].
  - assert (Hp : parse_line p line = p)
      by (unfold parse_line; now rewrite E).
    now rewrite IH, Hp.
  - cbn [fold_left]. apply IH.
Qed.

Lemma parse_line_header_resets (p q : parser) (line : str) :
  is_header (strip line) = true -> same_sections p q ->
  parse_line p line = parse_line q line.
Proof.
  intros Hh Hsame.
  destruct (parse_line_cases p line) as [[_ ->]|[(Hh' & _)|(Hh' & _)]];
    try congruence.
  destruct (parse_line_cases q line) as [[_ ->]|[(Hh' & _)|(Hh' & _)]];
    try congruence.
  now rewrite (same_sections_append_current _ _ Hsame).
Qed.

(** X16. Comment lines that come right before a header line (blank lines
    apart) are dropped, whatever follows the header. *)
Theorem comments_before_header_dropped
    (before dropped after : list str) (header_line : str)
    (Hdropped : Forall (fun line => is_comment line = true
                                    \/ is_blank line = true) dropped)
    (Hheader : is_header (strip header_line) = true) :
  parse_lines (before ++ dropped ++ header_line :: after)
  = parse_lines (before ++ header_line :: after).
Proof.
  unfold parse_lines. f_equal.
  rewrite !fold_left_app. cbn [fold_left]. f_equal.
  apply parse_line_header_resets; [exact Hheader|].
  generalize (fold_left parse_line before parser_start).
  induction Hdropped as [|line lines Hline _ IH]; intros p; [now split|].
  cbn [fold_left]. destruct (IH (parse_line p line)) as [E1 E2].
  assert (Hsame : same_sections (parse_line p line) p).
  { destruct Hline as [Hc|Hb].
    - rewrite parse_line_comment by exact Hc. now split.
    - unfold is_blank in Hb. unfold parse_line.
      destruct (strip line); [now split|discriminate]. }
  destruct Hsame as [E3 E4]. split; congruence.
Qed.

Lemma comments_before_header_dropped_sample :
  parse_lines [lit "a = 1"; lit "; lost"; []; lit "lost too"; lit " [B] ";
               lit "b = 2"]
  = parse_lines [lit "a = 1"; lit " [B] "; lit "b = 2"].
Proof.
  apply (comments_before_header_dropped
           [lit "a = 1"] [lit "; lost"; []; lit "lost too"] [lit "b = 2"]
           (lit " [B] ")).
  - constructor; [left; reflexivity|].
    constructor; [right; reflexivity|].
    constructor; [left; reflexivity|constructor].
  - reflexivity.
Defined.

(** X17. [test_ue4ss_settings_print_out] prints the very text that
    [write_ue4ss_settings_file] hands to the file. *)
Theorem print_out_is_written_text (l : list ConfigSection) :
  test_ue4ss_settings_print_out l = written_text l.
Proof.
  unfold test_ue4ss_settings_print_out, written_text. f_equal.
  apply map_ext. intros s. unfold section_text.
  f_equal; [now destruct (header s)|].
  f_equal. f_equal. apply map_ext. intros e. unfold entry_text.
  now rewrite <- !app_assoc.
Qed.

(** *** Probing a game directory *)

Section ProbeFacts.
Variable path : Type.
Variable isdir : path -> bool.
Variable isfile : path -> bool.
Variable iterdir : path -> list path.
Variable child : path -> str -> path.

Lemma probe_child_iff (d : path) :
  probe_child isdir isfile child d = true <-> ue4ss_layout isdir isfile child d.
Proof.
  unfold probe_child, ue4ss_layout.
  destruct (isdir d); cbn [negb]; [|intuition discriminate].
  destruct (isdir (win64_of child d)); cbn [negb]; [|intuition discriminate].
  destruct (isfile (child (win64_of child d) (lit "dwmapi.dll")));
    destruct (isfile (child (child (win64_of child d) (lit "ue4ss"))
                            (lit "ue4ss.dll")));
    destruct (isfile (child (win64_of child d) (lit "ue4ss.dll")));
    destruct (isfile (child (win64_of child d) (lit "xinput1_3.dll")));
    destruct (isfile (child (win64_of child d) (lit "UE4SS-settings.ini")));
    cbn [andb]; intuition discriminate.
Qed.

Lemma probe_children_iff (l : list path) :
  probe_children isdir isfile child l = true
  <-> exists d, In d l /\ ue4ss_layout isdir isfile child d.
Proof.
  induction l as [|x l IH]; cbn [probe_children].
  - split; [discriminate|now intros (d & [] & _)].
  - destruct (probe_child isdir isfile child x) eqn:E.
    + split; [|reflexivity]. intros _. exists x.
      split; [now left|now apply probe_child_iff].
    + rewrite IH. split; intros (d & Hd & Hl).
      * exists d. split; [now right|exact Hl].
      * destruct Hd as [->|Hd]; [|now exists d].
        apply probe_child_iff in Hl. congruence.
Qed.

(** X18. UE4SS counts as installed exactly when the game directory is a
    directory and one of its children is a directory with a
    [Binaries/Win64] directory that holds [dwmapi.dll] with [ue4ss.dll]
    (beside it or under [ue4ss]), or [xinput1_3.dll] with
    [UE4SS-settings.ini]. *)
Theorem is_ue4ss_installed_iff (game_directory : path) :
  is_ue4ss_installed isdir isfile iterdir child game_directory = true
  <-> isdir game_directory = true
      /\ exists d, In d (iterdir game_directory)
                   /\ ue4ss_layout isdir isfile child d.
Proof.
  unfold is_ue4ss_installed. destruct (isdir game_directory).
  - rewrite probe_children_iff. tauto.
  - split; [discriminate|now intros [H _]].
Qed.
End ProbeFacts.

(** *** Drive letters *)

Lemma NoDup_map_in {A B : Type} (f : A -> B) (l : list A) :
  (forall x y, In x l -> In y l -> f x = f y -> x = y) ->
  NoDup l -> NoDup (map f l).
Proof.
  intros Hinj H. induction H as [|x l Hx Hl IH]; [constructor|].
  cbn [map]. constructor.
  - intros Hin. apply in_map_iff in Hin as (y & Hy & Hyl).
    apply Hx. rewrite <- (Hinj y x); auto; [now right|now left].
  - apply IH. intros a b Ha Hb. apply Hinj; now right.
Qed.

Lemma drive_letter_inj (a b : nat) :
  a < 26 -> b < 26 -> drive_letter a = drive_letter b -> a = b.
Proof.
  unfold drive_letter. intros Ha Hb E. injection E as E.
  apply (f_equal nat_of_ascii) in E.
  rewrite !nat_ascii_embedding in E by lia. lia.
Qed.

Lemma drive_fold (path_exists : str -> bool) (l : list nat) (acc : list str) :
  fold_left (fun drive_letters drive =>
               if path_exists (drive_letter drive)
               then drive_letters ++ [drive_letter drive]
               else drive_letters)
            l acc
  = acc ++ filter path_exists (map drive_letter l).
Proof.
  revert acc. induction l as [|d l IH]; intros acc; cbn [fold_left map filter].
  - now rewrite app_nil_r.
  - rewrite IH. destruct (path_exists (drive_letter d)); [|reflexivity].
    now rewrite <- app_assoc.
Qed.

(** X19. The drive paths found are those of the letters A to Z whose path
    exists, each once, in the order of the alphabet. *)
Theorem get_all_drive_letter_paths_spec (path_exists : str -> bool) :
  get_all_drive_letter_paths path_exists
  = filter path_exists (map drive_letter (seq 0 26))
  /\ NoDup (get_all_drive_letter_paths path_exists)
  /\ forall p, In p (get_all_drive_letter_paths path_exists)
               <-> exists drive, drive < 26 /\ p = drive_letter drive
                                 /\ path_exists p = true.
Proof.
  assert (E : get_all_drive_letter_paths path_exists
              = filter path_exists (map drive_letter (seq 0 26)))
    by (unfold get_all_drive_letter_paths; now rewrite drive_fold).
  rewrite E. split; [reflexivity|]. split.
  - apply NoDup_filter, NoDup_map_in; [|apply seq_NoDup].
    intros a b Ha Hb. apply in_seq in Ha, Hb.
    apply drive_letter_inj; lia.
  - intros p. rewrite filter_In, in_map_iff. split.
    + intros [(d & <- & Hd) Hp]. apply in_seq in Hd.
      exists d. repeat split; [lia|exact Hp].
    + intros (d & Hd & -> & Hp). split; [|exact Hp].
      exists d. split; [reflexivity|]. apply in_seq. lia.
Qed.

(** *** The installer *)

Section InstallerFacts.
Variable requests_get : str -> nat -> response.
Variable data : Type.
Variable transfer : str -> str -> option data.
Variable extractall :
  data -> str -> (str -> option (node data)) -> (str -> option (node data)) * bool.

Lemma unzip_and_unlink_process (zip game : str) (m : machine data) :
  process (snd (unzip_and_unlink extractall zip game m)) = process m.
Proof.
  unfold unzip_and_unlink.
  destruct (unzip_zip extractall zip game (files m)) as [[e|u] d]; [reflexivity|].
  now destruct (unlink zip d) as [[e|u'] d'].
Qed.

Lemma unzip_and_unlink_done (zip game : str) (m m' : machine data) :
  unzip_and_unlink extractall zip game m = (inr tt, m') ->
  files m' zip = None.
Proof.
  unfold unzip_and_unlink.
  destruct (unzip_zip extractall zip game (files m)) as [[e|u] d];
    [discriminate|].
  unfold unlink. destruct (d zip) as [[content|]|]; try discriminate.
  intros E. injection E as <-. cbn [files]. unfold disk_remove.
  now rewrite str_eqb_refl.
Qed.

(** X20. With an archive already at the cache path, an install looks up no
    release: it sends no request, leaves the catalog variable as it is,
    and installs that archive whatever the tag asked for, as the install of
    the default tag does. *)
Theorem install_uses_cached_archive
    (fuel : nat) (cache_dir game : str) (t : option str) (m : machine data)
    (Hzip : path_exists_on (files m) (ue4ss_zip_path cache_dir) = true) :
  install_ue4ss_to_dir requests_get transfer extractall fuel cache_dir game t m
  = Some (unzip_and_unlink extractall (ue4ss_zip_path cache_dir) game m)
  /\ install_latest_ue4ss_to_dir requests_get transfer extractall fuel
       cache_dir game m
     = Some (unzip_and_unlink extractall (ue4ss_zip_path cache_dir) game m)
  /\ process (snd (unzip_and_unlink extractall (ue4ss_zip_path cache_dir)
                     game m))
     = process m.
Proof.
  unfold install_ue4ss_to_dir, install_latest_ue4ss_to_dir. rewrite Hzip.
  repeat split. apply unzip_and_unlink_process.
Qed.

(** X21. After an install that returns, no file is left at the cache
    path. *)
Theorem install_removes_archive
    (fuel : nat) (cache_dir game : str) (t : option str)
    (m m' : machine data)
    (Hdone : install_ue4ss_to_dir requests_get transfer extractall fuel
               cache_dir game t m = Some (inr tt, m')
             \/ install_latest_ue4ss_to_dir requests_get transfer extractall
                  fuel cache_dir game m = Some (inr tt, m')) :
  files m' (ue4ss_zip_path cache_dir) = None.
Proof.
  unfold install_ue4ss_to_dir, install_latest_ue4ss_to_dir in Hdone.
  destruct (path_exists_on (files m) (ue4ss_zip_path cache_dir)).
  - destruct Hdone as [E|E]; injection E as E;
      now apply unzip_and_unlink_done in E.
  - destruct (ensure_cached requests_get fuel (process m))
      as [[[e|u] w]|]; try (destruct Hdone; discriminate).
    destruct Hdone as [E|E].
    + destruct (fetch_archive transfer t (ue4ss_zip_path cache_dir) w (files m))
        as [[e|u'] m1]; [discriminate|].
      injection E as E. now apply unzip_and_unlink_done in E.
    + destruct (get_default_ue4ss_version_tag w) as [e|t']; [discriminate|].
      destruct (fetch_archive transfer t' (ue4ss_zip_path cache_dir) w (files m))
        as [[e|u'] m1]; [discriminate|].
      injection E as E. now apply unzip_and_unlink_done in E.
Qed.

(** X22. A download that fails is not reported: with no archive at the
    cache path, a catalog held and an asset selected, the install goes on
    to open the archive and fails there with the file-not-found error; the
    disk and the catalog are as before. *)
Theorem install_after_failed_download
    (fuel : nat) (cache_dir game : str) (t : option str) (m : machine data)
    (info : RepositoryReleasesInfo) (link : str)
    (Hzip : files m (ue4ss_zip_path cache_dir) = None)
    (Hcached : cached_repo_releases_info (process m) = Some info)
    (Hlink : select_installable_asset t (process m) = ok link)
    (Hfail : transfer link (ue4ss_zip_path cache_dir) = None) :
  install_ue4ss_to_dir requests_get transfer extractall fuel cache_dir game t m
  = Some (inl (RaisedIO FileNotFoundError), m).
Proof.
  unfold install_ue4ss_to_dir, path_exists_on, ensure_cached.
  rewrite Hzip, Hcached. unfold fetch_archive. rewrite Hlink.
  unfold ok, download_file. cbn beta iota. rewrite Hfail.
  unfold unzip_and_unlink, unzip_zip. cbn [files]. rewrite Hzip.
  now destruct m.
Qed.

(** X23. When no asset of the tag qualifies, the install fails with the
    error that names the tag before anything is downloaded, extracted or
    removed. *)
Theorem install_without_compatible_asset
    (fuel : nat) (cache_dir game : str) (t : option str) (m : machine data)
    (info : RepositoryReleasesInfo) (d : dict)
    (Hzip : files m (ue4ss_zip_path cache_dir) = None)
    (Hcached : cached_repo_releases_info (process m) = Some info)
    (Hmap : get_file_name_to_download_links_from_tag t (process m) = ok d)
    (Hnone : Forall (fun kv => ~ qualifies (snd kv)) d) :
  install_ue4ss_to_dir requests_get transfer extractall fuel cache_dir game t m
  = Some (inl (Raised (NoCompatibleAssetError t)), m).
Proof.
  unfold install_ue4ss_to_dir, path_exists_on, ensure_cached.
  rewrite Hzip, Hcached. unfold fetch_archive, select_installable_asset.
  rewrite Hmap. unfold ok, bind, final_download_link.
  rewrite find_no_match.
  - unfold raise. now destruct m.
  - apply Forall_dict_values. eapply Forall_impl; [|exact Hnone].
    intros kv Hkv. now apply installable_false.
Qed.

(** X24. Installing the latest release is installing the default tag of
    the catalog held once the catalog is ensured. *)
Theorem install_latest_is_install_default
    (fuel : nat) (cache_dir game : str) (m : machine data)
    (w : world) (t : option str)
    (Hcache : ensure_cached requests_get fuel (process m) = Some (ok tt, w))
    (Hdefault : get_default_ue4ss_version_tag w = ok t) :
  install_latest_ue4ss_to_dir requests_get transfer extractall fuel
    cache_dir game m
  = install_ue4ss_to_dir requests_get transfer extractall fuel cache_dir game
      t m.
Proof.
  unfold install_latest_ue4ss_to_dir, install_ue4ss_to_dir.
  destruct (path_exists_on (files m) (ue4ss_zip_path cache_dir));
    [reflexivity|].
  rewrite Hcache. unfold ok in *. now rewrite Hdefault.
Qed.

Lemma ensure_cached_populates (fuel : nat) (w w' : world) :
  ensure_cached requests_get fuel w = Some (ok tt, w') ->
  cached_repo_releases_info w' <> None.
Proof.
  unfold ensure_cached, cache_repo_releases_info.
  destruct (cached_repo_releases_info w) eqn:E.
  - intros H. injection H as <-. congruence.
  - destruct (get_all_release_assets requests_get fuel _ _ _)
      as [[[e|info] sent]|]; try discriminate.
    intros H. injection H as <-. discriminate.
Qed.

(** X25. Installing the latest release never asks for the tag "latest":
    once the catalog is ensured, a catalog without a normal release that
    has assets makes the install fail with the index error, before any
    download. *)
Theorem install_latest_without_release
    (fuel : nat) (cache_dir game : str) (m : machine data) (w : world)
    (Hzip : files m (ue4ss_zip_path cache_dir) = None)
    (Hcache : ensure_cached requests_get fuel (process m) = Some (ok tt, w))
    (Hnone : get_normal_release_tags_with_assets w = ok []) :
  install_latest_ue4ss_to_dir requests_get transfer extractall fuel
    cache_dir game m
  = Some (inl (Raised NoDefaultTagError), mkMachine w (files m)).
Proof.
  unfold install_latest_ue4ss_to_dir, path_exists_on.
  rewrite Hzip, Hcache.
  pose proof (ensure_cached_populates _ _ _ Hcache) as Hpop.
  unfold get_default_ue4ss_version_tag.
  destruct (cached_repo_releases_info w); [|congruence].
  now rewrite Hnone.
Qed.
End InstallerFacts.

Lemma install_uses_cached_archive_sample :
  install_ue4ss_to_dir sample_api no_transfer sample_extractall 0
    sample_cache_dir sample_game_dir (Some (lit "v9.9.9"))
    (mkMachine (mkWorld None []) cached_disk)
  = Some (unzip_and_unlink sample_extractall (ue4ss_zip_path sample_cache_dir)
            sample_game_dir (mkMachine (mkWorld None []) cached_disk))
  /\ install_latest_ue4ss_to_dir sample_api no_transfer sample_extractall 0
       sample_cache_dir sample_game_dir
       (mkMachine (mkWorld None []) cached_disk)
     = Some (unzip_and_unlink sample_extractall
               (ue4ss_zip_path sample_cache_dir) sample_game_dir
               (mkMachine (mkWorld None []) cached_disk))
  /\ process (snd (unzip_and_unlink sample_extractall
                     (ue4ss_zip_path sample_cache_dir) sample_game_dir
                     (mkMachine (mkWorld None []) cached_disk)))
     = mkWorld None [].
Proof.
  apply (install_uses_cached_archive sample_api str no_transfer
           sample_extractall 0 sample_cache_dir sample_game_dir
           (Some (lit "v9.9.9")) (mkMachine (mkWorld None []) cached_disk)).
  reflexivity.
Defined.

Lemma install_removes_archive_sample :
  disk_remove cached_disk (ue4ss_zip_path sample_cache_dir)
    (ue4ss_zip_path sample_cache_dir)
  = None.
Proof.
  apply (install_removes_archive sample_api str no_transfer sample_extractall
           0 sample_cache_dir sample_game_dir None
           (mkMachine (mkWorld None []) cached_disk)
           (mkMachine (mkWorld None [])
              (disk_remove cached_disk (ue4ss_zip_path sample_cache_dir)))).
  left. reflexivity.
Defined.

Lemma install_after_failed_download_sample :
  install_ue4ss_to_dir sample_api no_transfer sample_extractall 0
    sample_cache_dir sample_game_dir (Some (lit "v3.0.1")) sample_machine
  = Some (inl (RaisedIO FileNotFoundError), sample_machine).
Proof.
  apply (install_after_failed_download sample_api str no_transfer
           sample_extractall 0 sample_cache_dir sample_game_dir
           (Some (lit "v3.0.1")) sample_machine
           (build_catalog sample_owner sample_repo sample_releases)
           (browser_download_url sample_main_asset));
    reflexivity.
Defined.

Lemma install_without_compatible_asset_sample :
  install_ue4ss_to_dir sample_api sample_transfer sample_extractall 0
    sample_cache_dir sample_game_dir (Some (lit "experimental")) sample_machine
  = Some (inl (Raised (NoCompatibleAssetError (Some (lit "experimental")))),
          sample_machine).
Proof.
  apply (install_without_compatible_asset sample_api str sample_transfer
           sample_extractall 0 sample_cache_dir sample_game_dir
           (Some (lit "experimental")) sample_machine
           (build_catalog sample_owner sample_repo sample_releases) []);
    try reflexivity.
  constructor.
Defined.

Lemma install_latest_is_install_default_sample :
  install_latest_ue4ss_to_dir sample_api sample_transfer sample_extractall 0
    sample_cache_dir sample_game_dir sample_machine
  = install_ue4ss_to_dir sample_api sample_transfer sample_extractall 0
      sample_cache_dir sample_game_dir (Some (lit "v3.0.1")) sample_machine.
Proof.
  apply (install_latest_is_install_default sample_api str sample_transfer
           sample_extractall 0 sample_cache_dir sample_game_dir sample_machine
           sample_world (Some (lit "v3.0.1")));
    reflexivity.
Defined.

Lemma install_latest_without_release_sample :
  install_latest_ue4ss_to_dir sample_api sample_transfer sample_extractall 0
    sample_cache_dir sample_game_dir (mkMachine prerelease_world empty_disk)
  = Some (inl (Raised NoDefaultTagError),
          mkMachine prerelease_world empty_disk).
Proof.
  apply (install_latest_without_release sample_api str sample_transfer
           sample_extractall 0 sample_cache_dir sample_game_dir
           (mkMachine prerelease_world empty_disk) prerelease_world);
    reflexivity.
Defined.
